(** * safesql: sink discovery and call-site classification

    A shallow embedding of [safesql.go]: the catalog of [database/sql]
    methods that take a [query string] parameter, the search for commands,
    the walk over the call graph that separates constant queries from the
    others, and the clean-up of the constant texts that are printed. *)

From Stdlib Require Import Strings.Byte.
From stdpp Require Import base option list gmap strings.

Set Default Proof Using "Type".

(** ** Go strings

    A Go [string] is a sequence of bytes; [regexp] and [strings.TrimSpace]
    decode it as UTF-8.  Every rune they look for has one fixed encoding, so
    both are modelled on the bytes. *)

#[global] Instance byte_eq_dec : EqDecision byte := Byte.byte_eq_dec.

Module GoString.

Definition t := list byte.

Definition of_string (s : string) : t := String.list_byte_of_string s.

(** The character class of the pattern: RE2's [\s], which is tab, newline,
    form feed, carriage return and space (no vertical tab), and the double
    quote (byte 0x22). *)
Definition isClassByte (c : byte) : bool :=
  match c with
  | x09 | x0a | x0c | x0d | x20 | x22 => true
  | _ => false
  end.

(** The two-byte alternatives [\\n], [\\t], [\\r]: a backslash followed by
    the letter. *)
Definition isBackslash (c : byte) : bool :=
  match c with x5c => true | _ => false end.

Definition isEscapeLetter (c : byte) : bool :=
  match c with x6e | x74 | x72 => true | _ => false end.

Definition isEscape (c d : byte) : bool := isBackslash c && isEscapeLetter d.

(** The replacement [" "] is written once per match: when the scan is already
    inside a match nothing more is written. *)
Definition emitSpace (inMatch : bool) (out : t) : t :=
  if inMatch then out else x20 :: out.

(** [whitespaceRegexp.ReplaceAllString(src, " ")]: the pattern is one or more
    repetitions of the alternatives above (a class byte, [\\n], [\\t], [\\r]).
    Matches are found leftmost and are greedy, so each is a maximal run of
    the alternatives; [inMatch] records that the bytes just before the
    position belong to the current match. *)
Fixpoint replaceFrom (inMatch : bool) (src : t) : t :=
  match src with
  | [] => []
  | c :: rest =>
      if isClassByte c then emitSpace inMatch (replaceFrom true rest)
      else
        match rest with
        | d :: rest' =>
            if isEscape c d then emitSpace inMatch (replaceFrom true rest')
            else c :: replaceFrom false rest
        | [] => [c]
        end
  end.

Definition ReplaceAllString (src : t) : t := replaceFrom false src.

(** [unicode.IsSpace] on the runes below U+0080. *)
Definition isSpace1 (c : byte) : bool :=
  match c with
  | x09 | x0a | x0b | x0c | x0d | x20 => true
  | _ => false
  end.

(** U+0085 and U+00A0. *)
Definition isSpace2 (c d : byte) : bool :=
  match c, d with
  | xc2, x85 | xc2, xa0 => true
  | _, _ => false
  end.

(** U+1680, U+2000 to U+200A, U+2028, U+2029, U+202F, U+205F, U+3000. *)
Definition isSpace3 (c d e : byte) : bool :=
  match c with
  | xe1 => match d, e with x9a, x80 => true | _, _ => false end
  | xe2 =>
      match d with
      | x80 =>
          match e with
          | x80 | x81 | x82 | x83 | x84 | x85 | x86 | x87 | x88 | x89 | x8a
          | xa8 | xa9 | xaf => true
          | _ => false
          end
      | x81 => match e with x9f => true | _ => false end
      | _ => false
      end
  | xe3 => match d, e with x80, x80 => true | _, _ => false end
  | _ => false
  end.

Section Trim.
(** The encodings to strip, read from the end the scan starts at. *)
Variable sp1 : byte → bool.
Variable sp2 : byte → byte → bool.
Variable sp3 : byte → byte → byte → bool.

(** Does the string start with one of the encodings? *)
Definition startsSpace (s : t) : bool :=
  match s with
  | c :: d :: e :: _ => sp1 c || sp2 c d || sp3 c d e
  | [c; d] => sp1 c || sp2 c d
  | [c] => sp1 c
  | [] => false
  end.

Fixpoint trimFront (s : t) : t :=
  match s with
  | [] => []
  | c :: s1 =>
      if sp1 c then trimFront s1
      else
        match s1 with
        | d :: s2 =>
            if sp2 c d then trimFront s2
            else
              match s2 with
              | e :: s3 => if sp3 c d e then trimFront s3 else s
              | [] => s
              end
        | [] => s
        end
  end.
End Trim.

Definition TrimLeftSpace : t → t := trimFront isSpace1 isSpace2 isSpace3.

(** From the right the bytes of an encoding are met last byte first. *)
Definition TrimRightSpace (s : t) : t :=
  rev (trimFront isSpace1 (λ d c, isSpace2 c d) (λ e d c, isSpace3 c d e)
         (rev s)).

(** [strings.TrimSpace]: [TrimFunc(s, unicode.IsSpace)], the left end first. *)
Definition TrimSpace (s : t) : t := TrimRightSpace (TrimLeftSpace s).

End GoString.

(** [strings.TrimSpace(whitespaceRegexp.ReplaceAllString(query, " "))]. *)
Definition clean (query : GoString.t) : GoString.t :=
  GoString.TrimSpace (GoString.ReplaceAllString query).


(** ** Run-time failures

    A Go panic ends the run: no verdict is returned.  The three that the
    code can meet are the explicit [panic("arg count mismatch")], an index
    out of range, and a method call through a nil pointer or interface. *)

Inductive panic : Set :=
  | ArgCountMismatch
  | IndexOutOfRange
  | NilDereference.

Inductive result (A : Type) : Type :=
  | Ok (a : A)
  | Panic (p : panic).
Arguments Ok {A} a.
Arguments Panic {A} p.

#[global] Instance result_ret : MRet result := λ A a, Ok a.
#[global] Instance result_bind : MBind result := λ A B k r,
  match r with
  | Ok a => k a
  | Panic p => Panic p
  end.

Definition isOk {A} (r : result A) : bool :=
  match r with Ok _ => true | Panic _ => false end.

(** ** go/types: the part of the type information that is read *)

Module types.

Inductive BasicKind : Set :=
  | Bool | Int | Int64 | Uint8 | Float64 | String | UnsafePointer.

Inductive GoType : Set :=
  | Basic (kind : BasicKind)
  | Slice (elem : GoType)
  | Pointer (elem : GoType)
  | NamedRef (name : string)
  | EmptyInterface.

(** [types.Typ[types.String]]: basic types are canonical, so comparing with
    [==] against it holds for the basic type [string] and for nothing else
    (not for a named type whose underlying type is [string]). *)
Definition stringType : GoType := Basic String.

Definition isStringType (ty : GoType) : bool :=
  match ty with
  | Basic String => true
  | _ => false
  end.

Record Var : Set := { Name : string; Typ : GoType }.

(** [Params] does not hold the receiver. *)
Record Signature : Set := {
  Recv : option Var;
  Params : list Var;
  Results : list Var;
}.

Record Func : Set := {
  FuncName : string;
  FuncExported : bool;
  FuncType : Signature;
}.

(** A named type with its explicitly declared methods, [Method(0)] to
    [Method(NumMethods()-1)]. *)
Record Named : Set := { Methods : list Func }.

(** An object of a package scope.  When the source was written every type
    name of a package scope denoted a [*types.Named], so the type assertion
    on [o.Type()] is kept in the type of [TypeName]. *)
Inductive ObjectKind : Set :=
  | TypeName (named : Named)
  | FuncObject
  | VarObject
  | ConstObject.

Record Object : Set := {
  ObjectName : string;
  Exported : bool;
  Kind : ObjectKind;
}.

(** A scope, as the objects that [Lookup] returns for the names of
    [Names()], in that (sorted) order. *)
Definition Scope := list Object.

Record Package : Set := {
  Path : string;
  PackageName : string;
  PackageScope : Scope;
}.

(** The type of a type name in general.  A [*types.Named] has its explicit
    methods, those declared with a receiver, which [NumMethods] and [Method]
    give; when its underlying type is an interface, the methods of the
    interface are not among them.  Since Go has aliases, a type name may
    also denote a type that is not named. *)
Inductive TypeNameType : Set :=
  | IsNamed (named : Named) (interfaceMethods : list Func)
  | NotNamed (t : GoType).

Inductive AnyKind : Set :=
  | AnyTypeName (t : TypeNameType)
  | AnyFunc
  | AnyVar
  | AnyConst.

Record AnyObject : Set := {
  AnyName : string;
  AnyExported : bool;
  AnyKindOf : AnyKind;
}.

Definition AnyScope := list AnyObject.

End types.

(** ** go/ssa and go/callgraph *)

Module ssa.

(** An [*ssa.Function], compared and hashed by identity. *)
Definition Function := nat.

(** A [constant.Value], known through [ExactString()]. *)
Record Constant : Set := { ExactString : GoString.t }.

(** The operands a call can have.  [Const] carries [Value], which is nil for
    the nil constant and the zero values of types that are not basic. *)
Inductive Value : Set :=
  | Const (val : option Constant)
  | FuncParam (name : string)
  | BinOp (x y : Value)
  | CallResult (callee : Function)
  | GlobalVar (name : string).

(** A call instruction: its position, [Parent()], and [Common().Args]. *)
Record CallInstruction : Set := {
  Pos : nat;
  Parent : Function;
  Args : list Value;
}.

Inductive Member : Set :=
  | MFunction (fn : Function) (sig : types.Signature)
  | MGlobal
  | MType
  | MNamedConst.

Record Package : Set := {
  Pkg : string;
  Members : gmap string Member;
}.

(** [p.Func(name)]: the member of that name when it is a function. *)
Definition Func (p : Package) (name : string) : option Function :=
  match Members p !! name with
  | Some (MFunction fn _) => Some fn
  | _ => None
  end.

(** The program: its packages by import path ([Package] returns nil for a
    package that was not created) and the function of each declared
    method. *)
Record Program : Type := {
  packages : gmap string Package;
  FuncValue : types.Func → Function;
}.

Definition PackageOf (s : Program) (pkg : types.Package) : option Package :=
  packages s !! types.Path pkg.

End ssa.

Module loader.

Record PackageInfo : Set := { Pkg : types.Package }.

(** The program as one call of [InitialPackages()] shows it: the slice
    that the call returned. *)
Record Program : Set := { InitialPackages : list PackageInfo }.

(** What the loader holds: the created packages in a slice and the imported
    ones in a map by import path.  [InitialPackages()] makes a new slice of
    the first followed by the values of the map, which Go ranges over in an
    order that changes from one call to the next. *)
Record Loaded : Type := {
  Created : list PackageInfo;
  Imported : gmap string PackageInfo;
}.

(** [ips] is a slice that [InitialPackages()] can return. *)
Definition canReturn (l : Loaded) (ips : list PackageInfo) : Prop :=
  ∃ imported,
    imported ≡ₚ (map_to_list (Imported l)).*2 ∧ ips = Created l ++ imported.

End loader.

Module callgraph.

(** [Site] is nil for edges that start in synthetic or intrinsic
    functions; caller and callee are given by their functions. *)
Record Edge : Set := {
  Caller : ssa.Function;
  Site : option ssa.CallInstruction;
  Callee : ssa.Function;
}.

Record Node : Set := {
  Func : ssa.Function;
  ID : nat;
  In : list Edge;
  Out : list Edge;
}.

Record Graph : Type := {
  Root : option ssa.Function;
  Nodes : gmap ssa.Function Node;
}.

(** [g.CreateNode(fn)]: the node of [fn], added without edges when the graph
    has none. *)
Definition CreateNode (g : Graph) (fn : ssa.Function) : Node * Graph :=
  match Nodes g !! fn with
  | Some n => (n, g)
  | None =>
      let n := {| Func := fn; ID := size (Nodes g); In := []; Out := [] |} in
      (n, {| Root := Root g; Nodes := <[fn := n]> (Nodes g) |})
  end.

End callgraph.

(** ** The pass that removes the synthetic nodes

    The method [DeleteSyntheticNodes] of the graph with [AddEdge],
    [DeleteNode], [removeInEdge] and [removeOutEdge] of package callgraph.  The pass
    ranges over the map [g.Nodes]; Go leaves the order of that loop open,
    so the order is an argument here.  An edge is known by its caller, site
    and callee.  [None] is the panic of the library on an edge that is not
    found. *)
Module synthetic.

#[global] Instance Constant_eq_dec : EqDecision ssa.Constant.
Proof. solve_decision. Defined.

#[global] Instance Value_eq_dec : EqDecision ssa.Value.
Proof. solve_decision. Defined.

#[global] Instance CallInstruction_eq_dec : EqDecision ssa.CallInstruction.
Proof. solve_decision. Defined.

#[global] Instance Edge_eq_dec : EqDecision callgraph.Edge.
Proof. solve_decision. Defined.

(** What the pass asks of a function: whether it has no source syntax, and
    whether it is the initializer of its package. *)
Record Kinds : Type := {
  Synthetic : ssa.Function → bool;
  isInit : ssa.Function → bool;
}.

Definition withIn (es : list callgraph.Edge) (n : callgraph.Node) : callgraph.Node :=
  {| callgraph.Func := callgraph.Func n; callgraph.ID := callgraph.ID n;
     callgraph.In := es; callgraph.Out := callgraph.Out n |}.

Definition withOut (es : list callgraph.Edge) (n : callgraph.Node) : callgraph.Node :=
  {| callgraph.Func := callgraph.Func n; callgraph.ID := callgraph.ID n;
     callgraph.In := callgraph.In n; callgraph.Out := es |}.

Definition inOf (nodes : gmap ssa.Function callgraph.Node) (fn : ssa.Function)
    : list callgraph.Edge :=
  from_option callgraph.In [] (nodes !! fn).

Definition outOf (nodes : gmap ssa.Function callgraph.Node) (fn : ssa.Function)
    : list callgraph.Edge :=
  from_option callgraph.Out [] (nodes !! fn).

(** [AddEdge]: the edge is appended to the incoming edges of the callee and
    to the outgoing edges of the caller. *)
Definition AddEdge (e : callgraph.Edge) (nodes : gmap ssa.Function callgraph.Node)
    : gmap ssa.Function callgraph.Node :=
  alter (λ n, withOut (callgraph.Out n ++ [e]) n) (callgraph.Caller e)
    (alter (λ n, withIn (callgraph.In n ++ [e]) n) (callgraph.Callee e) nodes).

(** The removal of [removeInEdge] and [removeOutEdge]: the first place
    that holds the edge takes the final element, and the slice loses its
    final place. *)
Fixpoint swapDelete (e : callgraph.Edge) (l : list callgraph.Edge)
    : option (list callgraph.Edge) :=
  match l with
  | [] => None
  | x :: rest =>
      if decide (x = e) then
        Some match last rest with
             | Some y => y :: removelast rest
             | None => []
             end
      else (x ::.) <$> swapDelete e rest
  end.

Definition removeOutEdge (e : callgraph.Edge) (nodes : gmap ssa.Function callgraph.Node)
    : option (gmap ssa.Function callgraph.Node) :=
  n ← nodes !! callgraph.Caller e;
  out ← swapDelete e (callgraph.Out n);
  Some (<[callgraph.Caller e := withOut out n]> nodes).

Definition removeInEdge (e : callgraph.Edge) (nodes : gmap ssa.Function callgraph.Node)
    : option (gmap ssa.Function callgraph.Node) :=
  n ← nodes !! callgraph.Callee e;
  ins ← swapDelete e (callgraph.In n);
  Some (<[callgraph.Callee e := withIn ins n]> nodes).

Fixpoint removeEach
    (remove : callgraph.Edge → gmap ssa.Function callgraph.Node
              → option (gmap ssa.Function callgraph.Node))
    (es : list callgraph.Edge) (nodes : gmap ssa.Function callgraph.Node)
    : option (gmap ssa.Function callgraph.Node) :=
  match es with
  | [] => Some nodes
  | e :: rest => nodes' ← remove e nodes; removeEach remove rest nodes'
  end.

(** [DeleteNode]: [deleteIns], [deleteOuts], then the node leaves the
    map. *)
Definition DeleteNode (fn : ssa.Function) (nodes : gmap ssa.Function callgraph.Node)
    : option (gmap ssa.Function callgraph.Node) :=
  nodes ← removeEach removeOutEdge (inOf nodes fn) nodes;
  let nodes := alter (withIn []) fn nodes in
  nodes ← removeEach removeInEdge (outOf nodes fn) nodes;
  let nodes := alter (withOut []) fn nodes in
  Some (delete fn nodes).

(** The inner loop for one incoming edge: an edge from its caller to every
    callee of the node, unless the graph has had that edge.  The state is
    the edges seen so far and the nodes. *)
Fixpoint inlineOuts (eIn : callgraph.Edge) (outs : list callgraph.Edge)
    (st : list callgraph.Edge * gmap ssa.Function callgraph.Node)
    : list callgraph.Edge * gmap ssa.Function callgraph.Node :=
  match outs with
  | [] => st
  | eOut :: rest =>
      let newEdge := {| callgraph.Caller := callgraph.Caller eIn;
                        callgraph.Site := callgraph.Site eIn;
                        callgraph.Callee := callgraph.Callee eOut |} in
      if decide (newEdge ∈ st.1) then inlineOuts eIn rest st
      else inlineOuts eIn rest (newEdge :: st.1, AddEdge newEdge st.2)
  end.

(** The loop over the incoming edges of the node as they are when it
    begins; the outgoing edges are read again for every incoming edge. *)
Fixpoint inlineIns (fn : ssa.Function) (ins : list callgraph.Edge)
    (st : list callgraph.Edge * gmap ssa.Function callgraph.Node)
    : list callgraph.Edge * gmap ssa.Function callgraph.Node :=
  match ins with
  | [] => st
  | eIn :: rest => inlineIns fn rest (inlineOuts eIn (outOf st.2 fn) st)
  end.

(** The loop over the nodes in the given order: the root, the initializers
    and the functions with syntax are kept. *)
Fixpoint visit (k : Kinds) (root : option ssa.Function) (order : list ssa.Function)
    (st : list callgraph.Edge * gmap ssa.Function callgraph.Node)
    : option (gmap ssa.Function callgraph.Node) :=
  match order with
  | [] => Some st.2
  | fn :: rest =>
      if decide (root = Some fn) then visit k root rest st
      else if isInit k fn || negb (Synthetic k fn) then visit k root rest st
      else
        let st' := inlineIns fn (inOf st.2 fn) st in
        nodes ← DeleteNode fn st'.2;
        visit k root rest (st'.1, nodes)
  end.

(** The edges of the graph before the pass. *)
Definition existing (nodes : gmap ssa.Function callgraph.Node) : list callgraph.Edge :=
  (map_to_list nodes).*2 ≫= callgraph.Out.


Definition DeleteSyntheticNodesIn (k : Kinds) (order : list ssa.Function)
    (g : callgraph.Graph) : option callgraph.Graph :=
  nodes ← visit k (callgraph.Root g) order
            (existing (callgraph.Nodes g), callgraph.Nodes g);
  Some {| callgraph.Root := callgraph.Root g; callgraph.Nodes := nodes |}.

End synthetic.

(** ** The catalog of query methods *)

(** [ArgCount] and [Param] are a length and an index into it: Go's [int]
    holds there a number that is not negative. *)
Record QueryMethod : Set := {
  Func : types.Func;
  SSA : ssa.Function;
  ArgCount : nat;
  Param : nat;
}.

(** [v.Name() == "query" && v.Type() == stringType]. *)
Definition isQueryParam (v : types.Var) : bool :=
  String.eqb (types.Name v) "query" && types.isStringType (types.Typ v).

(** The loop of [FuncHasQuery], from index [i] on. *)
Fixpoint hasQueryFrom (i : nat) (params : list types.Var) : nat * bool :=
  match params with
  | [] => (0, false)
  | v :: rest =>
      if isQueryParam v then (i, true) else hasQueryFrom (S i) rest
  end.

Definition FuncHasQuery (s : types.Signature) : nat * bool :=
  hasQueryFrom 0 (types.Params s).

(** The loop over the methods of one named type. *)
Fixpoint appendQueryMethods (prog : ssa.Program) (ms : list types.Func)
    (methods : list QueryMethod) : list QueryMethod :=
  match ms with
  | [] => methods
  | m :: rest =>
      if negb (types.FuncExported m) then appendQueryMethods prog rest methods
      else
        let s := types.FuncType m in
        match FuncHasQuery s with
        | (num, true) =>
            appendQueryMethods prog rest
              (methods ++ [{| Func := m;
                              SSA := ssa.FuncValue prog m;
                              ArgCount := length (types.Params s);
                              Param := num |}])
        | (_, false) => appendQueryMethods prog rest methods
        end
  end.

(** The loop over the names of the scope. *)
Fixpoint scanScope (prog : ssa.Program) (objs : types.Scope)
    (methods : list QueryMethod) : list QueryMethod :=
  match objs with
  | [] => methods
  | o :: rest =>
      if negb (types.Exported o) then scanScope prog rest methods
      else
        match types.Kind o with
        | types.TypeName n =>
            scanScope prog rest (appendQueryMethods prog (types.Methods n) methods)
        | _ => scanScope prog rest methods
        end
  end.

Definition FindQueryMethods (sql : types.Package) (prog : ssa.Program)
    : list QueryMethod :=
  scanScope prog (types.PackageScope sql) [].

(** [FindQueryMethods] on the scope of any package.  The assertion of line
    127 that the type of a type name is a [*types.Named] is not checked:
    where it fails the function does not return ([None]).  On a scope whose
    type names all denote named types this is the function above. *)
Module anyscope.

Fixpoint scanScope (prog : ssa.Program) (objs : types.AnyScope)
    (methods : list QueryMethod) : option (list QueryMethod) :=
  match objs with
  | [] => Some methods
  | o :: rest =>
      if negb (types.AnyExported o) then scanScope prog rest methods
      else
        match types.AnyKindOf o with
        | types.AnyTypeName (types.IsNamed n _) =>
            scanScope prog rest (appendQueryMethods prog (types.Methods n) methods)
        | types.AnyTypeName (types.NotNamed _) => None
        | _ => scanScope prog rest methods
        end
  end.

Definition FindQueryMethods (scope : types.AnyScope) (prog : ssa.Program)
    : option (list QueryMethod) :=
  scanScope prog scope [].

End anyscope.

(** ** The commands *)

Fixpoint appendMains (s : ssa.Program) (ips : list loader.PackageInfo)
    (mains : list ssa.Package) : result (list ssa.Package) :=
  match ips with
  | [] => Ok mains
  | info :: rest =>
      match ssa.PackageOf s (loader.Pkg info) with
      | None => Panic NilDereference
      | Some ssaPkg =>
          match ssa.Func ssaPkg "main" with
          | Some _ => appendMains s rest (mains ++ [ssaPkg])
          | None => appendMains s rest mains
          end
      end
  end.

Definition FindMains (p : loader.Program) (s : ssa.Program)
    : result (list ssa.Package) :=
  appendMains s (loader.InitialPackages p) [].

(** ** The walk over the call graph *)

(** What [FindNonConstCalls] returns: the call sites whose query is not a
    constant, and the cleaned constant queries. *)
Record Verdict : Set := {
  bad : list ssa.CallInstruction;
  queries : list GoString.t;
}.

(** The first loop: the functions that are already tracked. *)
Fixpoint addOkFuncs (qms : list QueryMethod) (okFuncs : gset ssa.Function)
    : gset ssa.Function :=
  match qms with
  | [] => okFuncs
  | m :: rest => addOkFuncs rest ({[SSA m]} ∪ okFuncs)
  end.

(** Lines 200 to 206: the first argument is dropped when it is the
    receiver. *)
Definition receiverArgs (m : QueryMethod) (args : list ssa.Value)
    : result (list ssa.Value) :=
  if decide (length args = ArgCount m + 1) then Ok (drop 1 args)
  else if decide (length args ≠ ArgCount m) then Panic ArgCountMismatch
  else Ok args.

(** [args[i]]. *)
Definition index (args : list ssa.Value) (i : nat) : result ssa.Value :=
  match args !! i with
  | Some v => Ok v
  | None => Panic IndexOutOfRange
  end.

(** Lines 208 to 214. *)
Definition classify (site : ssa.CallInstruction) (v : ssa.Value)
    (acc : Verdict) : result Verdict :=
  match v with
  | ssa.Const val =>
      match val with
      | Some c =>
          let query := ssa.ExactString c in
          Ok {| bad := bad acc; queries := queries acc ++ [clean query] |}
      | None => Panic NilDereference
      end
  | _ => Ok {| bad := bad acc ++ [site]; queries := queries acc |}
  end.

(** The body of the inner loop for one edge; [continue] leaves the
    accumulated lists as they are. *)
Definition visitEdge (okFuncs : gset ssa.Function) (m : QueryMethod)
    (edge : callgraph.Edge) (acc : Verdict) : result Verdict :=
  match callgraph.Site edge with
  | None => Panic NilDereference
  | Some site =>
      if decide (ssa.Parent site ∈ okFuncs) then Ok acc
      else
        args ← receiverArgs m (ssa.Args site);
        v ← index args (Param m);
        classify site v acc
  end.

Fixpoint walkEdges (okFuncs : gset ssa.Function) (m : QueryMethod)
    (edges : list callgraph.Edge) (acc : Verdict) : result Verdict :=
  match edges with
  | [] => Ok acc
  | edge :: rest =>
      acc' ← visitEdge okFuncs m edge acc;
      walkEdges okFuncs m rest acc'
  end.

(** The outer loop; [CreateNode] may add a node to the graph, which the
    caller still holds. *)
Fixpoint walkMethods (okFuncs : gset ssa.Function) (qms : list QueryMethod)
    (cg : callgraph.Graph) (acc : Verdict)
    : result (Verdict * callgraph.Graph) :=
  match qms with
  | [] => Ok (acc, cg)
  | m :: rest =>
      let '(node, cg') := callgraph.CreateNode cg (SSA m) in
      acc' ← walkEdges okFuncs m (callgraph.In node) acc;
      walkMethods okFuncs rest cg' acc'
  end.

Section FindNonConstCalls.
(** [cg.DeleteSyntheticNodes()] belongs to the call graph library. *)
Variable DeleteSyntheticNodes : callgraph.Graph → callgraph.Graph.

(** The verdict, with the graph as the run leaves it. *)
Definition FindNonConstCalls (cg : callgraph.Graph) (qms : list QueryMethod)
    : result (Verdict * callgraph.Graph) :=
  let cg := DeleteSyntheticNodes cg in
  let okFuncs := addOkFuncs qms ∅ in
  walkMethods okFuncs qms cg {| bad := []; queries := [] |}.
End FindNonConstCalls.

(** ** The command *)

Module cli.

(** The flags [-p], [-v] and [-q] as [flag.Parse] leaves them. *)
Record Flags : Set := { print : bool; verbose : bool; quiet : bool }.

(** What the command writes: one constructor for each call of [fmt] (and
    for [flag.Usage]), with the values that the call formats. *)
Inductive Line : Type :=
  | Usage
  | LoadError (pkgs : list string) (err : string)
  | SinksHeader
  | SinkLine (f : types.Func) (param : nat)
  | EmptyLine
  | NoCommands
  | AnalysisError (err : string)
  | Query (q : GoString.t)
  | Safe
  | Found (n : nat)
  | UnsafeAt (pos : nat)
  | AdviceConstants
  | AdviceParameterized
  | AdviceStrings.

(** How [main] ends: it returns, it calls [os.Exit], or a panic of the
    functions it calls goes through it. *)
Inductive Status : Set :=
  | Return
  | Exit (code : nat)
  | Panicked (p : panic).

(** The packages that [main] calls: [c.Load()] after the imports, with the
    error as its message; [p.Package(path)], nil for a package that was not
    loaded; [ssautil.CreateProgram(p, 0)] with [Build]; [pointer.Analyze]
    for the given mains with [BuildCallGraph], which gives [res.CallGraph];
    and [DeleteSyntheticNodes] of that graph. *)
Record Env : Type := {
  Load : list string → loader.Program + string;
  PackageAt : loader.Program → string → option loader.PackageInfo;
  CreateProgram : loader.Program → ssa.Program;
  Analyze : list ssa.Package → callgraph.Graph + string;
  DeleteSyntheticNodes : callgraph.Graph → callgraph.Graph;
}.

(** Lines 57 to 61. *)
Definition sinkLines (qms : list QueryMethod) : list Line :=
  SinksHeader :: ((λ m, SinkLine (Func m) (Param m)) <$> qms) ++ [EmptyLine].

(** Lines 80 to 102: what is written for a verdict, and how [main] ends. *)
Definition report (fl : Flags) (v : Verdict) : list Line * Status :=
  if print fl then (Query <$> queries v, Return)
  else if decide (length (bad v) = 0)
  then (if quiet fl then [] else [Safe], Return)
  else (Found (length (bad v))
          :: ((λ ci, UnsafeAt (ssa.Pos ci)) <$> bad v)
          ++ [AdviceConstants; AdviceParameterized; AdviceStrings],
        Exit 1).

Definition main (env : Env) (fl : Flags) (pkgs : list string)
    : list Line * Status :=
  if decide (length pkgs = 0) then ([Usage], Exit 2)
  else
    match Load env ("database/sql" :: pkgs) with
    | inr err => ([LoadError pkgs err], Exit 2)
    | inl p =>
        let s := CreateProgram env p in
        match PackageAt env p "database/sql" with
        | None => ([], Panicked NilDereference)
        | Some info =>
            let qms := FindQueryMethods (loader.Pkg info) s in
            let shown := if verbose fl then sinkLines qms else [] in
            match FindMains p s with
            | Panic e => (shown, Panicked e)
            | Ok mains =>
                if decide (length mains = 0)
                then (shown ++ [NoCommands], Exit 2)
                else
                  match Analyze env mains with
                  | inr err => (shown ++ [AnalysisError err], Exit 2)
                  | inl cg =>
                      match FindNonConstCalls (DeleteSyntheticNodes env) cg qms with
                      | Panic e => (shown, Panicked e)
                      | Ok (v, _) =>
                          let '(lines, st) := report fl v in
                          (shown ++ lines, st)
                      end
                  end
            end
        end
    end.

(** The line that [-q] leaves out. *)
Definition isSafe (l : Line) : bool :=
  match l with Safe => true | _ => false end.

(** The lines of the report of unsafe sites. *)
Definition isFinding (l : Line) : bool :=
  match l with Found _ | UnsafeAt _ => true | _ => false end.

End cli.

(** ** Definitions used to state the properties *)

(** A text on which the replacement changes nothing: the only byte of the
    class is the space, never two in a row (nor one right after a match when
    [inMatch] is set), and no backslash is followed by [n], [t] or [r]. *)
Fixpoint replaced (inMatch : bool) (s : GoString.t) : bool :=
  match s with
  | [] => true
  | c :: rest =>
      if GoString.isClassByte c
      then match c with x20 => true | _ => false end
           && negb inMatch && replaced true rest
      else
        match rest with
        | d :: _ => negb (GoString.isEscape c d) && replaced false rest
        | [] => true
        end
  end.

(** The quoted text that [ExactString] gives for the string constant whose
    value is SELECT, two spaces, star, newline, two spaces, FROM t. *)
Definition selectQuoted : GoString.t :=
  x22 :: GoString.of_string "SELECT  *\n  FROM t" ++ [x22].

(** The same text between quotes with the newline as the byte 0x0a. *)
Definition selectNewline : GoString.t :=
  x22 :: GoString.of_string "SELECT  *" ++ [x0a]
      ++ GoString.of_string "  FROM t" ++ [x22].

(** The incoming edges of the node of [fn]; a function without a node has
    none. *)
Definition inEdges (g : callgraph.Graph) (fn : ssa.Function) : list callgraph.Edge :=
  match callgraph.Nodes g !! fn with
  | Some n => callgraph.In n
  | None => []
  end.

(** The graph after [CreateNode] was called for every method. *)
Fixpoint createNodes (g : callgraph.Graph) (qms : list QueryMethod) : callgraph.Graph :=
  match qms with
  | [] => g
  | m :: rest => createNodes (callgraph.CreateNode g (SSA m)).2 rest
  end.

(** What one incoming edge of a query method leads to, in the words of the
    algorithm: it is skipped as a call from a tracked function, it is an
    unsafe site, it gives a constant query, or the run stops. *)
Inductive EdgeClass : Set :=
  | Forwarded
  | UnsafeSite (site : ssa.CallInstruction)
  | ConstantQuery (text : GoString.t)
  | Fatal (p : panic).

Definition classifyEdge (okFuncs : gset ssa.Function) (m : QueryMethod)
    (edge : callgraph.Edge) : EdgeClass :=
  match callgraph.Site edge with
  | None => Fatal NilDereference
  | Some site =>
      if decide (ssa.Parent site ∈ okFuncs) then Forwarded
      else if decide (length (ssa.Args site) ≠ ArgCount m
                      ∧ length (ssa.Args site) ≠ ArgCount m + 1)
      then Fatal ArgCountMismatch
      else
        let args :=
          if decide (length (ssa.Args site) = ArgCount m + 1)
          then drop 1 (ssa.Args site) else ssa.Args site in
        match args !! Param m with
        | None => Fatal IndexOutOfRange
        | Some (ssa.Const None) => Fatal NilDereference
        | Some (ssa.Const (Some c)) => ConstantQuery (clean (ssa.ExactString c))
        | Some _ => UnsafeSite site
        end
  end.

(** The lists after one more edge. *)
Definition extend (acc : Verdict) (sites : list ssa.CallInstruction)
    (texts : list GoString.t) : Verdict :=
  {| bad := bad acc ++ sites; queries := queries acc ++ texts |}.

(** An edge on which the loop body does not stop the run: it has a call
    site, and unless that site lies in a tracked function its argument
    count fits, the query argument exists and, when it is a constant, has a
    value. *)
Definition wellFormedEdge (okFuncs : gset ssa.Function) (m : QueryMethod)
    (edge : callgraph.Edge) : Prop :=
  ∃ site, callgraph.Site edge = Some site ∧
    (ssa.Parent site ∈ okFuncs ∨
     ∃ args arg, receiverArgs m (ssa.Args site) = Ok args ∧
                 args !! Param m = Some arg ∧ arg ≠ ssa.Const None).

Definition unsafeOf (c : EdgeClass) : option ssa.CallInstruction :=
  match c with UnsafeSite site => Some site | _ => None end.

Definition constantOf (c : EdgeClass) : option GoString.t :=
  match c with ConstantQuery text => Some text | _ => None end.

Definition isFatal (c : EdgeClass) : bool :=
  match c with Fatal _ => true | _ => false end.

Definition isForwarded (c : EdgeClass) : bool :=
  match c with Forwarded => true | _ => false end.

(** The edges that reach classification, method by method in the order of
    the catalog, each method's edges in the order of its node. *)
Definition survivingEdges (okFuncs : gset ssa.Function) (g : callgraph.Graph)
    (qms : list QueryMethod) : list (QueryMethod * callgraph.Edge) :=
  qms ≫= λ m,
    (λ e, (m, e)) <$>
      filter (λ e, isForwarded (classifyEdge okFuncs m e) = false)
             (inEdges g (SSA m)).

(** The run of [main] in which every step up to the verdict succeeds. *)
Definition analysed (env : cli.Env) (pkgs : list string)
    (p : loader.Program) (info : loader.PackageInfo)
    (mains : list ssa.Package) (cg : callgraph.Graph)
    (v : Verdict) (g' : callgraph.Graph) : Prop :=
  pkgs ≠ [] ∧
  cli.Load env ("database/sql" :: pkgs) = inl p ∧
  cli.PackageAt env p "database/sql" = Some info ∧
  FindMains p (cli.CreateProgram env p) = Ok mains ∧
  mains ≠ [] ∧
  cli.Analyze env mains = inl cg ∧
  FindNonConstCalls (cli.DeleteSyntheticNodes env) cg
    (FindQueryMethods (loader.Pkg info) (cli.CreateProgram env p))
  = Ok (v, g').

(** What [-v] writes before the search for the commands. *)
Definition shownSinks (env : cli.Env) (fl : cli.Flags)
    (p : loader.Program) (info : loader.PackageInfo) : list cli.Line :=
  if cli.verbose fl
  then cli.sinkLines (FindQueryMethods (loader.Pkg info) (cli.CreateProgram env p))
  else [].

(** The lines that tell of the verdict. *)
Definition isVerdictLine (l : cli.Line) : bool :=
  match l with
  | cli.Query _ | cli.Safe | cli.Found _ | cli.UnsafeAt _
  | cli.AdviceConstants | cli.AdviceParameterized | cli.AdviceStrings => true
  | _ => false
  end.

(** The flags with [-q] set or not. *)
Definition withQuiet (q : bool) (fl : cli.Flags) : cli.Flags :=
  {| cli.print := cli.print fl; cli.verbose := cli.verbose fl; cli.quiet := q |}.

(** The catalog entry of a method, when it has one. *)
Definition queryMethodOf (prog : ssa.Program) (m : types.Func) : option QueryMethod :=
  if types.FuncExported m then
    match FuncHasQuery (types.FuncType m) with
    | (num, true) =>
        Some {| Func := m; SSA := ssa.FuncValue prog m;
                ArgCount := length (types.Params (types.FuncType m));
                Param := num |}
    | (_, false) => None
    end
  else None.

Definition queryMethodsOf (prog : ssa.Program) (o : types.Object) : list QueryMethod :=
  if types.Exported o then
    match types.Kind o with
    | types.TypeName n => omap (queryMethodOf prog) (types.Methods n)
    | _ => []
    end
  else [].

(** The package that [FindMains] keeps for one requested unit. *)
Definition mainPackage (s : ssa.Program) (info : loader.PackageInfo)
    : option ssa.Package :=
  pkg ← ssa.PackageOf s (loader.Pkg info);
  match ssa.Func pkg "main" with
  | Some _ => Some pkg
  | None => None
  end.

(** The catalog entries of one object of a scope of any package. *)
Definition anyMethodsOf (prog : ssa.Program) (o : types.AnyObject) : list QueryMethod :=
  if types.AnyExported o then
    match types.AnyKindOf o with
    | types.AnyTypeName (types.IsNamed n _) =>
        omap (queryMethodOf prog) (types.Methods n)
    | _ => []
    end
  else [].

(** An exported type name whose type is not named. *)
Definition isExportedAlias (o : types.AnyObject) : Prop :=
  types.AnyExported o = true ∧
  ∃ t, types.AnyKindOf o = types.AnyTypeName (types.NotNamed t).

(** An object of a scope whose type names all denote named types, as an
    object of a scope of any kind. *)
Definition anyObject (o : types.Object) : types.AnyObject :=
  {| types.AnyName := types.ObjectName o;
     types.AnyExported := types.Exported o;
     types.AnyKindOf :=
       match types.Kind o with
       | types.TypeName n => types.AnyTypeName (types.IsNamed n [])
       | types.FuncObject => types.AnyFunc
       | types.VarObject => types.AnyVar
       | types.ConstObject => types.AnyConst
       end |}.

(** The pass keeps the function: it is the root, an initializer, or has
    syntax. *)
Definition kept (k : synthetic.Kinds) (g : callgraph.Graph) (fn : ssa.Function) : Prop :=
  callgraph.Root g = Some fn ∨ synthetic.isInit k fn = true
  ∨ synthetic.Synthetic k fn = false.

#[global] Instance isExportedAlias_dec o : Decision (isExportedAlias o).
Proof.
  unfold isExportedAlias.
  destruct (types.AnyKindOf o) as [[n ims|t]| | |].
  - right. intros (_ & t & ?). done.
  - destruct (types.AnyExported o).
    + left. split; [done|]. by exists t.
    + right. by intros (? & _).
  - right. intros (_ & t & ?). done.
  - right. intros (_ & t & ?). done.
  - right. intros (_ & t & ?). done.
Defined.

(** Go rejects a signature that names two parameters alike; only the blank
    name and the absent name may repeat. *)
Definition distinctParamNames (sig : types.Signature) : Prop :=
  ∀ i j v w,
    types.Params sig !! i = Some v → types.Params sig !! j = Some w →
    types.Name v = types.Name w →
    types.Name v ≠ "" → types.Name v ≠ "_" → i = j.

(** ** A small program to evaluate the definitions on *)

Module Example.

Definition queryVar : types.Var :=
  {| types.Name := "query"; types.Typ := types.stringType |}.

Definition argsVar : types.Var :=
  {| types.Name := "args"; types.Typ := types.Slice types.EmptyInterface |}.

Definition dbRecv : option types.Var :=
  Some {| types.Name := "db"; types.Typ := types.Pointer (types.NamedRef "DB") |}.

(** [func (db *DB) Query(query string, args ...interface{})]. *)
Definition Query : types.Func :=
  {| types.FuncName := "Query"; types.FuncExported := true;
     types.FuncType := {| types.Recv := dbRecv;
                          types.Params := [queryVar; argsVar];
                          types.Results := [] |} |}.

(** [func (db *DB) QueryRow(query string, args ...interface{})], which calls
    [Query]. *)
Definition QueryRow : types.Func :=
  {| types.FuncName := "QueryRow"; types.FuncExported := true;
     types.FuncType := {| types.Recv := dbRecv;
                          types.Params := [queryVar; argsVar];
                          types.Results := [] |} |}.

(** [func (db *DB) Ping()]. *)
Definition Ping : types.Func :=
  {| types.FuncName := "Ping"; types.FuncExported := true;
     types.FuncType := {| types.Recv := dbRecv; types.Params := [];
                          types.Results := [] |} |}.

(** [func (db *DB) query(query string)], not exported. *)
Definition queryHelper : types.Func :=
  {| types.FuncName := "query"; types.FuncExported := false;
     types.FuncType := {| types.Recv := dbRecv; types.Params := [queryVar];
                          types.Results := [] |} |}.

(** [func (db *DB) Raw(query []byte)]: the name without the type. *)
Definition Raw : types.Func :=
  {| types.FuncName := "Raw"; types.FuncExported := true;
     types.FuncType :=
       {| types.Recv := dbRecv;
          types.Params := [{| types.Name := "query";
                              types.Typ := types.Slice (types.Basic types.Uint8) |}];
          types.Results := [] |} |}.

Definition sqlScope : types.Scope :=
  [ {| types.ObjectName := "DB"; types.Exported := true;
       types.Kind := types.TypeName
                       {| types.Methods := [Ping; Query; QueryRow; Raw; queryHelper] |} |};
    {| types.ObjectName := "Open"; types.Exported := true;
       types.Kind := types.FuncObject |};
    {| types.ObjectName := "driverConn"; types.Exported := false;
       types.Kind := types.TypeName {| types.Methods := [Query] |} |} ].

Definition sql : types.Package :=
  {| types.Path := "database/sql"; types.PackageName := "sql";
     types.PackageScope := sqlScope |}.

(** The functions: 1 is [Query], 2 is [QueryRow], 10 and 11 belong to the
    program under analysis. *)
Definition funcValue (m : types.Func) : ssa.Function :=
  if String.eqb (types.FuncName m) "Query" then 1
  else if String.eqb (types.FuncName m) "QueryRow" then 2
  else 0.

Definition noParams : types.Signature :=
  {| types.Recv := None; types.Params := []; types.Results := [] |}.

Definition oneParam : types.Signature :=
  {| types.Recv := None;
     types.Params := [{| types.Name := "n"; types.Typ := types.Basic types.Int |}];
     types.Results := [] |}.

(** [package main] with [func main()]. *)
Definition cmdPkg : ssa.Package :=
  {| ssa.Pkg := "example.com/cmd";
     ssa.Members := {[ "main" := ssa.MFunction 10 noParams;
                       "config" := ssa.MGlobal ]} |}.

(** [package tool], not a command, with [func main(n int)]. *)
Definition toolPkg : ssa.Package :=
  {| ssa.Pkg := "example.com/tool";
     ssa.Members := {[ "main" := ssa.MFunction 11 oneParam ]} |}.

(** [package lib], where [main] is a variable. *)
Definition libPkg : ssa.Package :=
  {| ssa.Pkg := "example.com/lib";
     ssa.Members := {[ "main" := ssa.MGlobal; "Run" := ssa.MFunction 12 noParams ]} |}.

Definition prog : ssa.Program :=
  {| ssa.packages := {[ "example.com/cmd" := cmdPkg;
                        "example.com/tool" := toolPkg;
                        "example.com/lib" := libPkg ]};
     ssa.FuncValue := funcValue |}.

Definition typesPkg (path name : string) : types.Package :=
  {| types.Path := path; types.PackageName := name; types.PackageScope := [] |}.

Definition loaded : loader.Program :=
  {| loader.InitialPackages :=
       [ {| loader.Pkg := typesPkg "example.com/cmd" "main" |};
         {| loader.Pkg := typesPkg "example.com/lib" "lib" |};
         {| loader.Pkg := typesPkg "example.com/tool" "tool" |} ] |}.

(** The quoted text of a string constant without characters to escape. *)
Definition quoted (s : string) : ssa.Value :=
  ssa.Const (Some {| ssa.ExactString := x22 :: GoString.of_string s ++ [x22] |}).

Definition db : ssa.Value := ssa.GlobalVar "db".
Definition noArgs : ssa.Value := ssa.Const None.

(** [db.Query("SELECT 1")] in function 10, with the receiver in front. *)
Definition siteConst : ssa.CallInstruction :=
  {| ssa.Pos := 100; ssa.Parent := 10; ssa.Args := [db; quoted "SELECT 1"; noArgs] |}.

(** The same constant at another site, called through an interface: no
    receiver among the arguments. *)
Definition siteConstAgain : ssa.CallInstruction :=
  {| ssa.Pos := 120; ssa.Parent := 11; ssa.Args := [quoted "SELECT 1"; noArgs] |}.

(** [db.Query("SELECT " + name)] in function 10. *)
Definition siteConcat : ssa.CallInstruction :=
  {| ssa.Pos := 140; ssa.Parent := 10;
     ssa.Args := [db; ssa.BinOp (quoted "SELECT ") (ssa.FuncParam "name"); noArgs] |}.

(** [db.Query(query, args...)] inside [QueryRow]. *)
Definition siteForward : ssa.CallInstruction :=
  {| ssa.Pos := 7; ssa.Parent := 2;
     ssa.Args := [db; ssa.FuncParam "query"; ssa.FuncParam "args"] |}.

(** A constant passed on from inside [QueryRow]. *)
Definition siteForwardConst : ssa.CallInstruction :=
  {| ssa.Pos := 8; ssa.Parent := 2; ssa.Args := [db; quoted "SELECT 2"; noArgs] |}.

(** A call with one argument too few. *)
Definition siteShort : ssa.CallInstruction :=
  {| ssa.Pos := 160; ssa.Parent := 10; ssa.Args := [quoted "SELECT 3"] |}.

Definition edgeTo (callee : ssa.Function) (site : ssa.CallInstruction) : callgraph.Edge :=
  {| callgraph.Caller := ssa.Parent site; callgraph.Site := Some site;
     callgraph.Callee := callee |}.

Definition graphOf (sites : list ssa.CallInstruction) : callgraph.Graph :=
  {| callgraph.Root := Some 0;
     callgraph.Nodes :=
       {[ 1 := {| callgraph.Func := 1; callgraph.ID := 0;
                  callgraph.In := edgeTo 1 <$> sites; callgraph.Out := [] |} ]} |}.

Definition cg : callgraph.Graph :=
  graphOf [siteConst; siteForward; siteConcat; siteForwardConst; siteConstAgain].

Definition cgShort : callgraph.Graph := graphOf [siteConst; siteShort].

Definition qmQuery : QueryMethod :=
  {| Func := Query; SSA := 1; ArgCount := 2; Param := 0 |}.

Definition qmQueryRow : QueryMethod :=
  {| Func := QueryRow; SSA := 2; ArgCount := 2; Param := 0 |}.

Definition qms : list QueryMethod := [qmQuery; qmQueryRow].

Definition noVerdict : Verdict := {| bad := []; queries := [] |}.

(** A graph without synthetic nodes is left as it is. *)
Definition keep (g : callgraph.Graph) : callgraph.Graph := g.

End Example.

(** ** Runs of the command on the small program *)

Module ExampleRun.

Definition flags (p v q : bool) : cli.Flags :=
  {| cli.print := p; cli.verbose := v; cli.quiet := q |}.

Definition sqlInfo : loader.PackageInfo := {| loader.Pkg := Example.sql |}.

Definition packageAt (p : loader.Program) (path : string)
    : option loader.PackageInfo :=
  if String.eqb path "database/sql" then Some sqlInfo else None.

(** Loading gives the small program and the analysis the given graph. *)
Definition envWith (g : callgraph.Graph) : cli.Env :=
  {| cli.Load := λ _, inl Example.loaded;
     cli.PackageAt := packageAt;
     cli.CreateProgram := λ _, Example.prog;
     cli.Analyze := λ _, inl g;
     cli.DeleteSyntheticNodes := Example.keep |}.

(** Loading fails. *)
Definition envNoLoad : cli.Env :=
  {| cli.Load := λ _, inr "cannot find package";
     cli.PackageAt := packageAt;
     cli.CreateProgram := λ _, Example.prog;
     cli.Analyze := λ _, inl Example.cg;
     cli.DeleteSyntheticNodes := Example.keep |}.

Definition env : cli.Env := envWith Example.cg.

(** Only constants and calls from inside [QueryRow]. *)
Definition cgSafe : callgraph.Graph :=
  Example.graphOf [Example.siteConst; Example.siteForward; Example.siteConstAgain].

Definition envSafe : cli.Env := envWith cgSafe.

(** Only calls from inside [QueryRow]. *)
Definition cgForwarded : callgraph.Graph :=
  Example.graphOf [Example.siteForward; Example.siteForwardConst].

Definition pkgs : list string := ["example.com/cmd"; "example.com/lib"; "example.com/tool"].

(** What the loader holds for the small program: nothing created, three
    imported units. *)
Definition held : loader.Loaded :=
  {| loader.Created := [];
     loader.Imported :=
       {[ "example.com/cmd" := {| loader.Pkg := Example.typesPkg "example.com/cmd" "main" |};
          "example.com/lib" := {| loader.Pkg := Example.typesPkg "example.com/lib" "lib" |};
          "example.com/tool" := {| loader.Pkg := Example.typesPkg "example.com/tool" "tool" |} ]} |}.

(** The same units as another call of [InitialPackages()] may give them. *)
Definition loadedAgain : loader.Program :=
  {| loader.InitialPackages :=
       [ {| loader.Pkg := Example.typesPkg "example.com/tool" "tool" |};
         {| loader.Pkg := Example.typesPkg "example.com/cmd" "main" |};
         {| loader.Pkg := Example.typesPkg "example.com/lib" "lib" |} ] |}.

(** [type DB struct] with its methods, [func Open] and the unexported
    [driverConn], as a scope of any kind. *)
Definition anySql : types.AnyScope :=
  [ {| types.AnyName := "DB"; types.AnyExported := true;
       types.AnyKindOf :=
         types.AnyTypeName
           (types.IsNamed
              {| types.Methods := [Example.Ping; Example.Query; Example.QueryRow;
                                   Example.Raw; Example.queryHelper] |} []) |};
    {| types.AnyName := "Open"; types.AnyExported := true;
       types.AnyKindOf := types.AnyFunc |};
    {| types.AnyName := "driverConn"; types.AnyExported := false;
       types.AnyKindOf :=
         types.AnyTypeName (types.IsNamed {| types.Methods := [Example.Query] |} []) |} ].

(** [type Queryer interface { Query(query string, args ...interface{}) }]:
    a named type without explicit methods. *)
Definition queryerScope : types.AnyScope :=
  [ {| types.AnyName := "Queryer"; types.AnyExported := true;
       types.AnyKindOf :=
         types.AnyTypeName (types.IsNamed {| types.Methods := [] |} [Example.Query]) |} ].

(** [type Args = []interface{}] after [DB]: an exported alias of a type
    that is not named. *)
Definition aliasScope : types.AnyScope :=
  [ {| types.AnyName := "Args"; types.AnyExported := true;
       types.AnyKindOf :=
         types.AnyTypeName (types.NotNamed (types.Slice types.EmptyInterface)) |} ]
  ++ anySql.

(** A unit that the SSA program does not know. *)
Definition loadedMissing : loader.Program :=
  {| loader.InitialPackages :=
       [ {| loader.Pkg := Example.typesPkg "example.com/cmd" "main" |};
         {| loader.Pkg := Example.typesPkg "example.com/gone" "gone" |} ] |}.

(** The first half and the second half of the scope of the small
    library. *)
Definition sqlHead : types.Package :=
  {| types.Path := "database/sql"; types.PackageName := "sql";
     types.PackageScope := take 1 Example.sqlScope |}.

Definition sqlTail : types.Package :=
  {| types.Path := "database/sql"; types.PackageName := "sql";
     types.PackageScope := drop 1 Example.sqlScope |}.

End ExampleRun.

(** ** A program that reaches [Query] through wrappers

    Function 10 calls [Query] at four sites with a query that is not a
    constant: two through the wrapper 20 and two through the wrapper 21,
    both without syntax. *)
Module ExampleWrappers.

Definition siteAt (pos : nat) : ssa.CallInstruction :=
  {| ssa.Pos := pos; ssa.Parent := 10;
     ssa.Args := [Example.db; ssa.FuncParam "q"; Example.noArgs] |}.

Definition call (caller callee : ssa.Function) (site : ssa.CallInstruction)
    : callgraph.Edge :=
  {| callgraph.Caller := caller; callgraph.Site := Some site;
     callgraph.Callee := callee |}.

Definition fromRoot : callgraph.Edge :=
  {| callgraph.Caller := 0; callgraph.Site := None; callgraph.Callee := 10 |}.

Definition inWrapper (fn : ssa.Function) : ssa.CallInstruction :=
  {| ssa.Pos := 0; ssa.Parent := fn;
     ssa.Args := [Example.db; ssa.FuncParam "query"; ssa.FuncParam "args"] |}.

Definition calls : list callgraph.Edge :=
  [ fromRoot;
    call 10 20 (siteAt 201); call 10 20 (siteAt 202);
    call 10 21 (siteAt 203); call 10 21 (siteAt 204);
    call 20 1 (inWrapper 20); call 21 1 (inWrapper 21) ].

Definition nodeOf (fn : ssa.Function) : callgraph.Node :=
  {| callgraph.Func := fn; callgraph.ID := fn;
     callgraph.In := filter (λ e, callgraph.Callee e = fn) calls;
     callgraph.Out := filter (λ e, callgraph.Caller e = fn) calls |}.

Definition cg : callgraph.Graph :=
  {| callgraph.Root := Some 0;
     callgraph.Nodes := {[ 0 := nodeOf 0; 1 := nodeOf 1; 10 := nodeOf 10;
                           20 := nodeOf 20; 21 := nodeOf 21 ]} |}.

Definition kinds : synthetic.Kinds :=
  {| synthetic.Synthetic := λ fn, bool_decide (fn = 20 ∨ fn = 21);
     synthetic.isInit := λ _, false |}.

Definition order : list ssa.Function := [0; 1; 10; 20; 21].

Definition sinkNode (sites : list nat) : callgraph.Node :=
  {| callgraph.Func := 1; callgraph.ID := 1;
     callgraph.In := call 10 1 ∘ siteAt <$> sites; callgraph.Out := [] |}.

Definition callerNode (sites : list nat) : callgraph.Node :=
  {| callgraph.Func := 10; callgraph.ID := 10;
     callgraph.In := [fromRoot]; callgraph.Out := call 10 1 ∘ siteAt <$> sites |}.

(** The graph with the calls through the wrappers as calls of [Query]. *)
Definition inlined (ins outs : list nat) : callgraph.Graph :=
  {| callgraph.Root := Some 0;
     callgraph.Nodes := {[ 0 := nodeOf 0; 1 := sinkNode ins; 10 := callerNode outs ]} |}.

(** What the pass leaves when it meets 20 before 21, and 21 before 20. *)
Definition left : callgraph.Graph := inlined [202; 204; 201; 203] [202; 201; 204; 203].


End ExampleWrappers.

(** * Properties *)

(** ** Cleaning a query text *)

Section TrimFacts.
Variable sp1 : byte → bool.
Variable sp2 : byte → byte → bool.
Variable sp3 : byte → byte → byte → bool.

Local Abbreviation trim := (GoString.trimFront sp1 sp2 sp3).
Local Abbreviation starts := (GoString.startsSpace sp1 sp2 sp3).

(** Induction along the calls of [trimFront]. *)
Lemma trimFront_cases (P : GoString.t → GoString.t → Prop) :
  (∀ c s1, sp1 c = true → P s1 (trim s1) → P (c :: s1) (trim s1)) →
  (∀ c d s2, sp1 c = false → sp2 c d = true →
     P s2 (trim s2) → P (c :: d :: s2) (trim s2)) →
  (∀ c d e s3, sp1 c = false → sp2 c d = false → sp3 c d e = true →
     P s3 (trim s3) → P (c :: d :: e :: s3) (trim s3)) →
  (∀ s, starts s = false → P s s) →
  ∀ s, P s (trim s).
Proof.
  intros H1 H2 H3 Hstop s.
  remember (length s) as n eqn:Hn. revert s Hn.
  induction n as [n IH] using lt_wf_ind. intros s Hn.
  destruct s as [|c s1]; [by apply Hstop|]. simpl.
  destruct (sp1 c) eqn:E1.
  { apply H1; [done|]. eapply IH; [|done]. simpl in Hn. lia. }
  destruct s1 as [|d s2]; [apply Hstop; by simpl; rewrite E1|].
  destruct (sp2 c d) eqn:E2.
  { apply H2; [done..|]. eapply IH; [|done]. simpl in Hn. lia. }
  destruct s2 as [|e s3]; [apply Hstop; by simpl; rewrite E1, E2|].
  destruct (sp3 c d e) eqn:E3.
  { apply H3; [done..|]. eapply IH; [|done]. simpl in Hn. lia. }
  apply Hstop. by simpl; rewrite E1, E2, E3.
Qed.

Lemma trimFront_suffix s : ∃ p, s = p ++ trim s.
Proof.
  apply (trimFront_cases (λ s r, ∃ p, s = p ++ r)).
  - intros c s1 _ [p Hp]. exists (c :: p). simpl. by f_equal.
  - intros c d s2 _ _ [p Hp]. exists (c :: d :: p). simpl. by do 2 f_equal.
  - intros c d e s3 _ _ _ [p Hp]. exists (c :: d :: e :: p). simpl. by do 3 f_equal.
  - intros s' _. by exists [].
Qed.

Lemma trimFront_starts s : starts (trim s) = false.
Proof. by apply (trimFront_cases (λ _ r, starts r = false)). Qed.

Lemma trimFront_fixed s : starts s = false → trim s = s.
Proof.
  destruct s as [|c [|d [|e s3]]]; simpl; [done|..].
  - by intros ->.
  - intros [-> ->]%orb_false_elim. done.
  - intros [[-> ->]%orb_false_elim ->]%orb_false_elim. done.
Qed.

Lemma trimFront_idem s : trim (trim s) = trim s.
Proof. apply trimFront_fixed, trimFront_starts. Qed.

Lemma startsSpace_app p q : starts p = true → starts (p ++ q) = true.
Proof.
  destruct p as [|c [|d [|e p]]]; simpl; [done|..]; intros H.
  - destruct q as [|d [|e q]]; simpl; by rewrite H.
  - destruct q as [|e q]; simpl; by rewrite H.
  - done.
Qed.
End TrimFacts.

Lemma TrimLeftSpace_suffix s : ∃ p, s = p ++ GoString.TrimLeftSpace s.
Proof. apply trimFront_suffix. Qed.

Lemma TrimRightSpace_prefix s : ∃ q, s = GoString.TrimRightSpace s ++ q.
Proof.
  unfold GoString.TrimRightSpace.
  destruct (trimFront_suffix GoString.isSpace1
              (λ d c, GoString.isSpace2 c d) (λ e d c, GoString.isSpace3 c d e)
              (rev s)) as [p Hp].
  exists (rev p). rewrite <- rev_app_distr, <- Hp. by rewrite rev_involutive.
Qed.

Lemma TrimRightSpace_idem s :
  GoString.TrimRightSpace (GoString.TrimRightSpace s) = GoString.TrimRightSpace s.
Proof.
  unfold GoString.TrimRightSpace. by rewrite rev_involutive, trimFront_idem.
Qed.

(** Trimming on the right leaves a left end that is already trimmed. *)
Lemma TrimLeftSpace_TrimRightSpace s :
  GoString.TrimLeftSpace (GoString.TrimRightSpace (GoString.TrimLeftSpace s))
  = GoString.TrimRightSpace (GoString.TrimLeftSpace s).
Proof.
  set (x := GoString.TrimLeftSpace s).
  apply trimFront_fixed.
  destruct (GoString.startsSpace _ _ _ (GoString.TrimRightSpace x)) eqn:E; [|done].
  destruct (TrimRightSpace_prefix x) as [q Hq].
  apply (startsSpace_app _ _ _ _ q) in E. rewrite <- Hq in E.
  unfold x, GoString.TrimLeftSpace in E. by rewrite trimFront_starts in E.
Qed.

Lemma TrimSpace_idem s : GoString.TrimSpace (GoString.TrimSpace s) = GoString.TrimSpace s.
Proof.
  unfold GoString.TrimSpace.
  by rewrite TrimLeftSpace_TrimRightSpace, TrimRightSpace_idem.
Qed.

Lemma replaceFrom_head d rest :
  (∃ out, GoString.replaceFrom false (d :: rest) = x20 :: out) ∨
  (∃ out, GoString.replaceFrom false (d :: rest) = d :: out).
Proof.
  simpl. destruct (GoString.isClassByte d); [left; by eexists|].
  destruct rest as [|e rest]; [right; by eexists|].
  destruct (GoString.isEscape d e); [left | right]; by eexists.
Qed.

Lemma isEscape_space c : GoString.isEscape c x20 = false.
Proof. unfold GoString.isEscape. apply andb_false_r. Qed.

Lemma replaced_emitSpace b out :
  replaced true out = true → replaced b (GoString.emitSpace b out) = true.
Proof. intros H. destruct b; simpl; [done|]. by rewrite H. Qed.

Lemma replaced_cons_other b c d rest :
  GoString.isClassByte c = false →
  replaced b (c :: d :: rest)
  = negb (GoString.isEscape c d) && replaced false (d :: rest).
Proof. intros Ec. simpl. by rewrite Ec. Qed.

Lemma replaced_replaceFrom s : ∀ b, replaced b (GoString.replaceFrom b s) = true.
Proof.
  remember (length s) as n eqn:Hn. revert s Hn.
  induction n as [n IH] using lt_wf_ind. intros s Hn b.
  destruct s as [|c rest]; [done|]. simpl in Hn. simpl.
  destruct (GoString.isClassByte c) eqn:Ec.
  { apply replaced_emitSpace. eapply IH; [|done]. lia. }
  destruct rest as [|d rest']; [by simpl; rewrite Ec|].
  destruct (GoString.isEscape c d) eqn:Ed.
  { apply replaced_emitSpace. eapply IH; [|done]. simpl in Hn. lia. }
  assert (Hrest : replaced false (GoString.replaceFrom false (d :: rest')) = true).
  { eapply IH; [|done]. lia. }
  destruct (replaceFrom_head d rest') as [[out Hout]|[out Hout]];
    rewrite Hout in *; rewrite (replaced_cons_other _ _ _ _ Ec), Hrest.
  - by rewrite isEscape_space.
  - by rewrite Ed.
Qed.

Lemma replaced_fixed s : ∀ b, replaced b s = true → GoString.replaceFrom b s = s.
Proof.
  induction s as [|c rest IH]; intros b; [done|]. simpl.
  destruct (GoString.isClassByte c) eqn:Ec.
  - intros [[Hc Hb%negb_true_iff]%andb_prop Hrest]%andb_prop. subst b.
    rewrite (IH true Hrest). simpl. f_equal. by destruct c.
  - destruct rest as [|d rest']; [done|].
    intros [Hd%negb_true_iff Hrest]%andb_prop. rewrite Hd.
    by rewrite (IH false Hrest).
Qed.

Lemma replaced_weaken s : replaced true s = true → replaced false s = true.
Proof.
  destruct s as [|c rest]; [done|]. simpl.
  destruct (GoString.isClassByte c); [|done].
  by rewrite andb_false_r.
Qed.

Lemma replaced_tail b c s : replaced b (c :: s) = true → replaced false s = true.
Proof.
  simpl. destruct (GoString.isClassByte c).
  - intros [_ H]%andb_prop. by apply replaced_weaken.
  - destruct s as [|d s']; [done|]. by intros [_ H]%andb_prop.
Qed.

Lemma replaced_suffix p s : ∀ b, replaced b (p ++ s) = true → replaced false s = true.
Proof.
  induction p as [|c p IH]; intros b H; simpl in H.
  - destruct b; [by apply replaced_weaken | done].
  - apply replaced_tail in H. by apply (IH false).
Qed.

Lemma replaced_prefix s q : ∀ b, replaced b (s ++ q) = true → replaced b s = true.
Proof.
  induction s as [|c s IH]; intros b; [done|].
  change ((c :: s) ++ q) with (c :: (s ++ q)). cbn [replaced].
  destruct (GoString.isClassByte c).
  - intros [-> H]%andb_prop. by rewrite (IH true H).
  - destruct s as [|d s']; [by destruct (q)|].
    change ((d :: s') ++ q) with (d :: (s' ++ q)).
    intros [-> H]%andb_prop. simpl. by apply (IH false).
Qed.

Lemma replaced_TrimSpace s :
  replaced false s = true → replaced false (GoString.TrimSpace s) = true.
Proof.
  intros H. unfold GoString.TrimSpace.
  destruct (TrimLeftSpace_suffix s) as [p Hp].
  destruct (TrimRightSpace_prefix (GoString.TrimLeftSpace s)) as [q Hq].
  rewrite Hp in H. apply replaced_suffix in H.
  rewrite Hq in H. by apply replaced_prefix in H.
Qed.

(** C7: cleaning a query text (every maximal run of white space, double
    quotes and escaped [\n], [\t], [\r] becomes one space, then the ends are
    trimmed) is idempotent, and the quoted text of SELECT  *\n  FROM t is
    cleaned to SELECT * FROM t, with the newline escaped as [ExactString]
    writes it or as the byte itself. *)
Theorem clean_idempotent :
  (∀ s, clean (clean s) = clean s) ∧
  clean selectQuoted = GoString.of_string "SELECT * FROM t" ∧
  clean selectNewline = GoString.of_string "SELECT * FROM t".
Proof.
  split; [|split; reflexivity].
  intros s. unfold clean.
  assert (H : replaced false (GoString.TrimSpace (GoString.ReplaceAllString s)) = true).
  { apply replaced_TrimSpace, replaced_replaceFrom. }
  unfold GoString.ReplaceAllString at 1.
  rewrite (replaced_fixed _ _ H). apply TrimSpace_idem.
Qed.

(** ** The catalog *)

Lemma isStringType_spec ty : types.isStringType ty = true ↔ ty = types.stringType.
Proof.
  unfold types.stringType. split; [|by intros ->].
  destruct ty as [[]| | | |]; simpl; congruence.
Qed.

Lemma isQueryParam_spec v :
  isQueryParam v = true ↔ types.Name v = "query" ∧ types.Typ v = types.stringType.
Proof.
  unfold isQueryParam.
  by rewrite andb_true_iff, String.eqb_eq, isStringType_spec.
Qed.

Lemma hasQueryFrom_true params : ∀ i n,
  hasQueryFrom i params = (n, true) →
  ∃ k v, n = i + k ∧ params !! k = Some v ∧ isQueryParam v = true ∧
         ∀ j w, j < k → params !! j = Some w → isQueryParam w = false.
Proof.
  induction params as [|v rest IH]; intros i n; simpl; [done|].
  destruct (isQueryParam v) eqn:Ev.
  - intros [= <-]. exists 0, v. repeat split; [lia|done|lia].
  - intros (k & w & -> & Hk & Hw & Hfirst)%IH.
    exists (S k), w. repeat split; [lia|done..|].
    intros [|j] u Hj; simpl; [congruence|]. apply Hfirst. lia.
Qed.

Lemma hasQueryFrom_false params : ∀ i n,
  hasQueryFrom i params = (n, false) →
  n = 0 ∧ ∀ v, v ∈ params → isQueryParam v = false.
Proof.
  induction params as [|v rest IH]; intros i n; simpl.
  - intros [= <-]. split; [done|]. by intros v ?%elem_of_nil.
  - destruct (isQueryParam v) eqn:Ev; [done|].
    intros [-> Hrest]%IH. split; [done|].
    intros w [->|Hw]%elem_of_cons; auto.
Qed.

Lemma hasQueryFrom_first params : ∀ i k v,
  params !! k = Some v → isQueryParam v = true →
  (∀ j w, j < k → params !! j = Some w → isQueryParam w = false) →
  hasQueryFrom i params = (i + k, true).
Proof.
  induction params as [|u rest IH]; intros i k v; [done|].
  destruct k as [|k]; simpl.
  - intros [= ->] -> _. f_equal. lia.
  - intros Hk Hv Hfirst. rewrite (Hfirst 0 u); [|lia|done].
    rewrite (IH (S i) k v); [f_equal; lia|done..|].
    intros j w Hj. apply (Hfirst (S j)). lia.
Qed.

Lemma appendQueryMethods_cons prog m rest methods :
  appendQueryMethods prog (m :: rest) methods
  = appendQueryMethods prog rest (methods ++ option_list (queryMethodOf prog m)).
Proof.
  simpl. unfold queryMethodOf.
  destruct (types.FuncExported m); simpl; [|by rewrite app_nil_r].
  destruct (FuncHasQuery (types.FuncType m)) as [num [|]]; simpl;
    by rewrite ?app_nil_r.
Qed.

Lemma appendQueryMethods_closed prog ms : ∀ methods,
  appendQueryMethods prog ms methods = methods ++ omap (queryMethodOf prog) ms.
Proof.
  induction ms as [|m rest IH]; intros methods.
  { simpl. by rewrite app_nil_r. }
  rewrite appendQueryMethods_cons, IH, <- app_assoc. f_equal.
  change (omap (queryMethodOf prog) (m :: rest))
    with (match queryMethodOf prog m with
          | Some y => y :: omap (queryMethodOf prog) rest
          | None => omap (queryMethodOf prog) rest
          end).
  by destruct (queryMethodOf prog m).
Qed.

Lemma scanScope_cons prog o rest methods :
  scanScope prog (o :: rest) methods
  = scanScope prog rest (methods ++ queryMethodsOf prog o).
Proof.
  simpl. unfold queryMethodsOf.
  destruct (types.Exported o); simpl; [|by rewrite app_nil_r].
  destruct (types.Kind o); simpl; rewrite ?app_nil_r; try done.
  by rewrite appendQueryMethods_closed.
Qed.

Lemma scanScope_closed prog objs : ∀ methods,
  scanScope prog objs methods = methods ++ (objs ≫= queryMethodsOf prog).
Proof.
  induction objs as [|o rest IH]; intros methods.
  { simpl. by rewrite app_nil_r. }
  by rewrite scanScope_cons, IH, <- app_assoc.
Qed.

Lemma FindQueryMethods_closed sql prog :
  FindQueryMethods sql prog = types.PackageScope sql ≫= queryMethodsOf prog.
Proof. unfold FindQueryMethods. by rewrite scanScope_closed. Qed.

Lemma elem_of_FindQueryMethods sql prog qm :
  qm ∈ FindQueryMethods sql prog ↔
  ∃ o n m, o ∈ types.PackageScope sql ∧ types.Exported o = true ∧
           types.Kind o = types.TypeName n ∧ m ∈ types.Methods n ∧
           queryMethodOf prog m = Some qm.
Proof.
  rewrite FindQueryMethods_closed, list_elem_of_bind. split.
  - intros (o & Hqm & Ho). unfold queryMethodsOf in Hqm.
    destruct (types.Exported o) eqn:Eo; [|by apply elem_of_nil in Hqm].
    destruct (types.Kind o) as [n| | |] eqn:Ek; try by apply elem_of_nil in Hqm.
    apply list_elem_of_omap in Hqm as (m & Hm & Hq). by exists o, n, m.
  - intros (o & n & m & Ho & Eo & Ek & Hm & Hq). exists o. split; [|done].
    unfold queryMethodsOf. rewrite Eo, Ek. apply list_elem_of_omap. by exists m.
Qed.

Lemma queryMethodOf_Some prog m qm :
  queryMethodOf prog m = Some qm ↔
  types.FuncExported m = true ∧
  ∃ k v, types.Params (types.FuncType m) !! k = Some v ∧ isQueryParam v = true ∧
         (∀ j w, j < k → types.Params (types.FuncType m) !! j = Some w →
                 isQueryParam w = false) ∧
         qm = {| Func := m; SSA := ssa.FuncValue prog m;
                 ArgCount := length (types.Params (types.FuncType m));
                 Param := k |}.
Proof.
  unfold queryMethodOf, FuncHasQuery. split.
  - destruct (types.FuncExported m); [|done]. split; [done|].
    destruct (hasQueryFrom 0 _) as [num [|]] eqn:E; [|done].
    apply hasQueryFrom_true in E as (k & v & -> & Hk & Hv & Hfirst).
    exists k, v. by simplify_eq.
  - intros (-> & k & v & Hk & Hv & Hfirst & ->).
    by rewrite (hasQueryFrom_first _ 0 k v).
Qed.

Lemma queryMethodOf_in_range prog m qm :
  queryMethodOf prog m = Some qm → Param qm < ArgCount qm.
Proof.
  intros (_ & k & v & Hk & _ & _ & ->)%queryMethodOf_Some. simpl.
  by apply lookup_lt_Some in Hk.
Qed.

Lemma FindQueryMethods_in_range sql prog qm :
  qm ∈ FindQueryMethods sql prog → Param qm < ArgCount qm.
Proof.
  intros (o & n & m & _ & _ & _ & _ & Hq)%elem_of_FindQueryMethods.
  by eapply queryMethodOf_in_range.
Qed.

(** ** The walk *)

Lemma elem_of_addOkFuncs qms : ∀ okFuncs f,
  f ∈ addOkFuncs qms okFuncs ↔ f ∈ okFuncs ∨ ∃ m, m ∈ qms ∧ SSA m = f.
Proof.
  induction qms as [|m rest IH]; intros okFuncs f; simpl.
  - split; [by left|]. intros [?|(m & ?%elem_of_nil & _)]; done.
  - rewrite IH, elem_of_union, elem_of_singleton. split.
    + intros [[->|?]|(m' & ? & ?)].
      * right. exists m. split; [by left|done].
      * by left.
      * right. exists m'. split; [by right|done].
    + intros [?|(m' & [->|?]%elem_of_cons & <-)].
      * left. by right.
      * left. by left.
      * right. by exists m'.
Qed.

Lemma elem_of_okFuncs qms f :
  f ∈ addOkFuncs qms ∅ ↔ ∃ m, m ∈ qms ∧ SSA m = f.
Proof.
  rewrite elem_of_addOkFuncs. split; [|by right].
  by intros [?%not_elem_of_empty|?].
Qed.

Lemma receiverArgs_receiver m args :
  length args = ArgCount m + 1 →
  receiverArgs m args = Ok (drop 1 args) ∧ length (drop 1 args) = ArgCount m.
Proof.
  intros H. unfold receiverArgs. rewrite decide_True by done.
  split; [done|]. rewrite length_drop. lia.
Qed.

Lemma receiverArgs_plain m args :
  length args = ArgCount m → receiverArgs m args = Ok args.
Proof.
  intros H. unfold receiverArgs.
  rewrite decide_False by lia. by rewrite decide_False by (intros ?; lia).
Qed.

Lemma receiverArgs_mismatch m args :
  length args ≠ ArgCount m → length args ≠ ArgCount m + 1 →
  receiverArgs m args = Panic ArgCountMismatch.
Proof.
  intros H1 H2. unfold receiverArgs.
  rewrite decide_False by done. by rewrite decide_True by done.
Qed.

Lemma receiverArgs_Ok m args args' :
  receiverArgs m args = Ok args' → length args' = ArgCount m.
Proof.
  unfold receiverArgs. repeat case_decide; intros [= <-].
  - rewrite length_drop. lia.
  - destruct (decide (length args = ArgCount m)); [done|contradiction].
Qed.

Lemma visitEdge_classifyEdge okFuncs m edge acc :
  visitEdge okFuncs m edge acc =
  match classifyEdge okFuncs m edge with
  | Forwarded => Ok acc
  | UnsafeSite site => Ok (extend acc [site] [])
  | ConstantQuery text => Ok (extend acc [] [text])
  | Fatal p => Panic p
  end.
Proof.
  unfold visitEdge, classifyEdge.
  destruct (callgraph.Site edge) as [site|]; [|done].
  destruct (decide (ssa.Parent site ∈ okFuncs)); [done|].
  destruct (decide (length (ssa.Args site) ≠ ArgCount m
                    ∧ length (ssa.Args site) ≠ ArgCount m + 1)) as [[H1 H2]|Hlen].
  { by rewrite receiverArgs_mismatch. }
  destruct (decide (length (ssa.Args site) = ArgCount m + 1)) as [Hrecv|Hplain].
  - rewrite (proj1 (receiverArgs_receiver _ _ Hrecv)). simpl.
    unfold index, classify, extend.
    destruct (drop 1 (ssa.Args site) !! Param m) as [[[c|]| | | |]|]; simpl;
      by rewrite ?app_nil_r.
  - rewrite receiverArgs_plain by (destruct (decide (length (ssa.Args site) = ArgCount m)); [done|tauto]).
    simpl. unfold index, classify, extend.
    destruct (ssa.Args site !! Param m) as [[[c|]| | | |]|]; simpl;
      by rewrite ?app_nil_r.
Qed.

Lemma extend_extend acc s1 t1 s2 t2 :
  extend (extend acc s1 t1) s2 t2 = extend acc (s1 ++ s2) (t1 ++ t2).
Proof. unfold extend. simpl. by rewrite !app_assoc. Qed.

Lemma extend_nil acc : extend acc [] [] = acc.
Proof. destruct acc. unfold extend. simpl. by rewrite !app_nil_r. Qed.

(** The sites and texts that a list of edges of [m] adds. *)
Lemma walkEdges_Ok okFuncs m edges : ∀ acc v,
  walkEdges okFuncs m edges acc = Ok v ↔
  Forall (λ e, isFatal (classifyEdge okFuncs m e) = false) edges ∧
  v = extend acc (omap (λ e, unsafeOf (classifyEdge okFuncs m e)) edges)
                 (omap (λ e, constantOf (classifyEdge okFuncs m e)) edges).
Proof.
  induction edges as [|e rest IH]; intros acc v.
  { simpl. rewrite extend_nil. split; [by intros [= ->]|by intros [_ ->]]. }
  rewrite Forall_cons. cbn [walkEdges omap list_omap].
  rewrite visitEdge_classifyEdge.
  destruct (classifyEdge okFuncs m e) as [|site|text|p]; simpl.
  - rewrite IH. tauto.
  - rewrite IH, extend_extend. simpl. tauto.
  - rewrite IH, extend_extend. simpl. tauto.
  - split; [done|]. by intros [[? _] _].
Qed.

Lemma walkEdges_Panic okFuncs m edges : ∀ acc p,
  walkEdges okFuncs m edges acc = Panic p →
  ∃ e, e ∈ edges ∧ classifyEdge okFuncs m e = Fatal p.
Proof.
  induction edges as [|e rest IH]; intros acc p; [done|].
  cbn [walkEdges]. rewrite visitEdge_classifyEdge.
  destruct (classifyEdge okFuncs m e) as [|site|text|q] eqn:E; simpl.
  1-3: intros (e' & ? & ?)%IH; exists e'; split; [by right|done].
  intros [= ->]. exists e. split; [by left|done].
Qed.

Lemma result_bind_Ok {A B} (k : A → result B) a : Ok a ≫= k = k a.
Proof. done. Qed.

Lemma result_bind_Panic {A B} (k : A → result B) p : Panic p ≫= k = Panic p.
Proof. done. Qed.

Lemma CreateNode_In g fn :
  callgraph.In (callgraph.CreateNode g fn).1 = inEdges g fn.
Proof.
  unfold callgraph.CreateNode, inEdges.
  by destruct (callgraph.Nodes g !! fn).
Qed.

Lemma CreateNode_inEdges g fn f :
  inEdges (callgraph.CreateNode g fn).2 f = inEdges g f.
Proof.
  unfold callgraph.CreateNode, inEdges.
  destruct (callgraph.Nodes g !! fn) eqn:E; [done|]. simpl.
  destruct (decide (fn = f)) as [->|Hne].
  - by rewrite lookup_insert_eq, E.
  - by rewrite lookup_insert_ne.
Qed.


Lemma CreateNode_keeps g fn f :
  is_Some (callgraph.Nodes g !! f) →
  is_Some (callgraph.Nodes (callgraph.CreateNode g fn).2 !! f).
Proof.
  intros Hf. unfold callgraph.CreateNode.
  destruct (callgraph.Nodes g !! fn) eqn:E; [done|]. simpl.
  destruct (decide (fn = f)) as [->|Hne].
  - rewrite lookup_insert_eq. by eexists.
  - by rewrite lookup_insert_ne.
Qed.

Lemma CreateNode_present g fn :
  is_Some (callgraph.Nodes (callgraph.CreateNode g fn).2 !! fn).
Proof.
  unfold callgraph.CreateNode.
  destruct (callgraph.Nodes g !! fn) eqn:E; simpl.
  - rewrite E. by eexists.
  - rewrite lookup_insert_eq. by eexists.
Qed.


Lemma createNodes_keeps qms : ∀ g f,
  is_Some (callgraph.Nodes g !! f) →
  is_Some (callgraph.Nodes (createNodes g qms) !! f).
Proof.
  induction qms as [|m rest IH]; intros g f Hf; simpl; [done|].
  by apply IH, CreateNode_keeps.
Qed.

Lemma createNodes_present qms : ∀ g m,
  m ∈ qms → is_Some (callgraph.Nodes (createNodes g qms) !! SSA m).
Proof.
  induction qms as [|m' rest IH]; intros g m; simpl.
  - by intros ?%elem_of_nil.
  - intros [->|Hm]%elem_of_cons; [|by apply IH].
    apply createNodes_keeps, CreateNode_present.
Qed.



Lemma walkMethods_cons okFuncs m rest g acc :
  walkMethods okFuncs (m :: rest) g acc =
  acc' ← walkEdges okFuncs m (inEdges g (SSA m)) acc;
  walkMethods okFuncs rest (callgraph.CreateNode g (SSA m)).2 acc'.
Proof.
  cbn [walkMethods]. rewrite <- CreateNode_In.
  by destruct (callgraph.CreateNode g (SSA m)).
Qed.

Lemma walkMethods_Ok_edges okFuncs (edgesOf : ssa.Function → list callgraph.Edge) qms :
  ∀ g acc v g',
  (∀ f, inEdges g f = edgesOf f) →
  walkMethods okFuncs qms g acc = Ok (v, g') ↔
  (∀ m e, m ∈ qms → e ∈ edgesOf (SSA m) →
          isFatal (classifyEdge okFuncs m e) = false) ∧
  v = extend acc
        (qms ≫= λ m, omap (λ e, unsafeOf (classifyEdge okFuncs m e))
                          (edgesOf (SSA m)))
        (qms ≫= λ m, omap (λ e, constantOf (classifyEdge okFuncs m e))
                          (edgesOf (SSA m))) ∧
  g' = createNodes g qms.
Proof.
  induction qms as [|m rest IH]; intros g acc v g' Hg.
  { simpl. rewrite extend_nil. split.
    - intros [= -> ->]. split; [|done]. by intros m e ?%elem_of_nil.
    - by intros (_ & -> & ->). }
  rewrite walkMethods_cons, Hg.
  destruct (walkEdges okFuncs m (edgesOf (SSA m)) acc) as [acc'|p] eqn:E;
    [rewrite result_bind_Ok | rewrite result_bind_Panic].
  - apply walkEdges_Ok in E as [Hm ->]. rewrite Forall_forall in Hm.
    rewrite IH by (intros f; by rewrite CreateNode_inEdges).
    rewrite extend_extend, !bind_cons. cbn [createNodes]. split.
    + intros (Hrest & -> & ->). split; [|done].
      intros m' e [->|Hm']%elem_of_cons; [apply Hm|by apply Hrest].
    + intros (Hall & -> & ->). split; [|done].
      intros m' e Hm'. apply Hall. by right.
  - split; [done|]. intros (Hall & _).
    apply walkEdges_Panic in E as (e & He & Hfatal).
    specialize (Hall m e (list_elem_of_here _ _) He). by rewrite Hfatal in Hall.
Qed.

(** The verdict of the outer loop: the sites and texts of each method's
    edges, the methods in the order of the catalog. *)
Lemma walkMethods_Ok okFuncs qms g acc v g' :
  walkMethods okFuncs qms g acc = Ok (v, g') ↔
  (∀ m e, m ∈ qms → e ∈ inEdges g (SSA m) →
          isFatal (classifyEdge okFuncs m e) = false) ∧
  v = extend acc
        (qms ≫= λ m, omap (λ e, unsafeOf (classifyEdge okFuncs m e))
                          (inEdges g (SSA m)))
        (qms ≫= λ m, omap (λ e, constantOf (classifyEdge okFuncs m e))
                          (inEdges g (SSA m))) ∧
  g' = createNodes g qms.
Proof. by apply walkMethods_Ok_edges. Qed.

Lemma walkMethods_Panic okFuncs qms : ∀ g acc p,
  walkMethods okFuncs qms g acc = Panic p →
  ∃ m e, m ∈ qms ∧ e ∈ inEdges g (SSA m) ∧ classifyEdge okFuncs m e = Fatal p.
Proof.
  induction qms as [|m rest IH]; intros g acc p; [done|].
  rewrite walkMethods_cons.
  destruct (walkEdges okFuncs m (inEdges g (SSA m)) acc) as [acc'|q] eqn:E;
    [rewrite result_bind_Ok | rewrite result_bind_Panic].
  - intros (m' & e & Hm' & He & Hfatal)%IH. rewrite CreateNode_inEdges in He.
    exists m', e. split; [by right|done].
  - intros [= ->]. apply walkEdges_Panic in E as (e & He & Hfatal).
    exists m, e. split; [by left|done].
Qed.


Lemma classifyEdge_cases okFuncs m edge :
  match classifyEdge okFuncs m edge with
  | Forwarded =>
      ∃ site, callgraph.Site edge = Some site ∧ ssa.Parent site ∈ okFuncs
  | UnsafeSite s =>
      callgraph.Site edge = Some s ∧ (ssa.Parent s ∉ okFuncs) ∧
      ∃ args arg, receiverArgs m (ssa.Args s) = Ok args ∧
                  args !! Param m = Some arg ∧ ∀ val, arg ≠ ssa.Const val
  | ConstantQuery text =>
      ∃ site args c,
        callgraph.Site edge = Some site ∧ (ssa.Parent site ∉ okFuncs) ∧
        receiverArgs m (ssa.Args site) = Ok args ∧
        args !! Param m = Some (ssa.Const (Some c)) ∧
        text = clean (ssa.ExactString c)
  | Fatal p =>
      (callgraph.Site edge = None ∧ p = NilDereference) ∨
      ∃ site, callgraph.Site edge = Some site ∧ (ssa.Parent site ∉ okFuncs) ∧
        ((receiverArgs m (ssa.Args site) = Panic ArgCountMismatch
          ∧ p = ArgCountMismatch) ∨
         ∃ args, receiverArgs m (ssa.Args site) = Ok args ∧
           ((args !! Param m = None ∧ p = IndexOutOfRange) ∨
            (args !! Param m = Some (ssa.Const None) ∧ p = NilDereference)))
  end.
Proof.
  unfold classifyEdge.
  destruct (callgraph.Site edge) as [site|]; [|by left].
  destruct (decide (ssa.Parent site ∈ okFuncs)); [by exists site|].
  destruct (decide (length (ssa.Args site) ≠ ArgCount m
                    ∧ length (ssa.Args site) ≠ ArgCount m + 1)) as [[H1 H2]|Hlen].
  { right. exists site. repeat split; [done|]. left.
    by rewrite receiverArgs_mismatch. }
  assert (∃ args, receiverArgs m (ssa.Args site) = Ok args ∧
            args = if decide (length (ssa.Args site) = ArgCount m + 1)
                   then drop 1 (ssa.Args site) else ssa.Args site)
    as (args & Hargs & <-).
  { destruct (decide (length (ssa.Args site) = ArgCount m + 1)) as [Hrecv|Hplain].
    - eexists. split; [|done]. by apply receiverArgs_receiver.
    - eexists. split; [|done]. apply receiverArgs_plain.
      destruct (decide (length (ssa.Args site) = ArgCount m)); [done|tauto]. }
  destruct (args !! Param m) as [[[c|]| | | |]|] eqn:Earg.
  - by exists site, args, c.
  - right. exists site. repeat split; [done|]. right. exists args. auto.
  - repeat split; [done|]. by eexists args, _.
  - repeat split; [done|]. by eexists args, _.
  - repeat split; [done|]. by eexists args, _.
  - repeat split; [done|]. by eexists args, _.
  - right. exists site. repeat split; [done|]. right. exists args. auto.
Qed.

Lemma wellFormedEdge_not_fatal okFuncs m edge :
  wellFormedEdge okFuncs m edge ↔ isFatal (classifyEdge okFuncs m edge) = false.
Proof.
  pose proof (classifyEdge_cases okFuncs m edge) as H.
  unfold wellFormedEdge. split.
  - intros (site & Hsite & Hwf).
    destruct (classifyEdge okFuncs m edge) as [| | |p]; try done.
    destruct H as [[? _]|(site' & ? & Hnot & H)]; [congruence|].
    simplify_eq. destruct Hwf as [?|(args & arg & Hargs & Harg & Hval)]; [done|].
    destruct H as [[? _]|(args' & ? & [[? _]|[? _]])]; congruence.
  - destruct (classifyEdge okFuncs m edge) as [|s|text|p]; try done; intros _.
    + destruct H as (site & ? & ?). exists site. auto.
    + destruct H as (? & ? & args & arg & ? & ? & Hval). exists s.
      split; [done|]. right. exists args, arg. repeat split; [done..|apply Hval].
    + destruct H as (site & args & c & ? & ? & ? & ? & _). exists site.
      split; [done|]. right. by exists args, (ssa.Const (Some c)).
Qed.

Lemma FindNonConstCalls_Ok DeleteSyntheticNodes cg qms v g' :
  FindNonConstCalls DeleteSyntheticNodes cg qms = Ok (v, g') ↔
  (∀ m e, m ∈ qms → e ∈ inEdges (DeleteSyntheticNodes cg) (SSA m) →
          wellFormedEdge (addOkFuncs qms ∅) m e) ∧
  bad v = (qms ≫= λ m, omap (λ e, unsafeOf (classifyEdge (addOkFuncs qms ∅) m e))
                            (inEdges (DeleteSyntheticNodes cg) (SSA m))) ∧
  queries v = (qms ≫= λ m, omap (λ e, constantOf (classifyEdge (addOkFuncs qms ∅) m e))
                                (inEdges (DeleteSyntheticNodes cg) (SSA m))) ∧
  g' = createNodes (DeleteSyntheticNodes cg) qms.
Proof.
  unfold FindNonConstCalls. rewrite walkMethods_Ok.
  setoid_rewrite wellFormedEdge_not_fatal.
  unfold extend. simpl. destruct v as [b q]. simpl.
  split.
  - intros (? & [= -> ->] & ?). done.
  - intros (? & -> & -> & ?). done.
Qed.

Lemma FindNonConstCalls_Panic DeleteSyntheticNodes cg qms p :
  FindNonConstCalls DeleteSyntheticNodes cg qms = Panic p →
  ∃ m e, m ∈ qms ∧ e ∈ inEdges (DeleteSyntheticNodes cg) (SSA m) ∧
         classifyEdge (addOkFuncs qms ∅) m e = Fatal p.
Proof. apply walkMethods_Panic. Qed.

Lemma classifyEdge_mismatch okFuncs m edge site :
  callgraph.Site edge = Some site → ssa.Parent site ∉ okFuncs →
  length (ssa.Args site) ≠ ArgCount m →
  length (ssa.Args site) ≠ ArgCount m + 1 →
  classifyEdge okFuncs m edge = Fatal ArgCountMismatch.
Proof.
  intros Hsite Hparent H1 H2. unfold classifyEdge. rewrite Hsite.
  rewrite decide_False by done. by rewrite decide_True by done.
Qed.

Lemma visitEdge_surviving okFuncs m edge site acc :
  callgraph.Site edge = Some site → ssa.Parent site ∉ okFuncs →
  visitEdge okFuncs m edge acc =
  args ← receiverArgs m (ssa.Args site);
  v ← index args (Param m);
  classify site v acc.
Proof.
  intros Hsite Hparent. unfold visitEdge. rewrite Hsite.
  by rewrite decide_False by done.
Qed.

Lemma visitEdge_forwarded okFuncs m edge site acc :
  callgraph.Site edge = Some site → ssa.Parent site ∈ okFuncs →
  visitEdge okFuncs m edge acc = Ok acc.
Proof.
  intros Hsite Hparent. unfold visitEdge. rewrite Hsite.
  by rewrite decide_True by done.
Qed.

(** ** The claims about the walk *)

(** C1: for a query method with [ArgCount] n and an edge that is not
    skipped, a call with n+1 arguments loses its first argument, a call with
    n arguments keeps them all, and in both cases the query is looked up in
    a list of exactly n arguments; with any other number of arguments the
    loop body panics with the argument count mismatch and
    [FindNonConstCalls] returns no verdict. *)
Theorem receiver_offset_resolution
    (DeleteSyntheticNodes : callgraph.Graph → callgraph.Graph)
    (okFuncs : gset ssa.Function) (m : QueryMethod)
    (edge : callgraph.Edge) (site : ssa.CallInstruction) (acc : Verdict) :
  callgraph.Site edge = Some site →
  ssa.Parent site ∉ okFuncs →
  (length (ssa.Args site) = ArgCount m + 1 →
     receiverArgs m (ssa.Args site) = Ok (drop 1 (ssa.Args site)) ∧
     length (drop 1 (ssa.Args site)) = ArgCount m ∧
     visitEdge okFuncs m edge acc =
       (v ← index (drop 1 (ssa.Args site)) (Param m); classify site v acc)) ∧
  (length (ssa.Args site) = ArgCount m →
     receiverArgs m (ssa.Args site) = Ok (ssa.Args site) ∧
     visitEdge okFuncs m edge acc =
       (v ← index (ssa.Args site) (Param m); classify site v acc)) ∧
  (length (ssa.Args site) ≠ ArgCount m →
   length (ssa.Args site) ≠ ArgCount m + 1 →
     receiverArgs m (ssa.Args site) = Panic ArgCountMismatch ∧
     visitEdge okFuncs m edge acc = Panic ArgCountMismatch ∧
     ∀ cg qms,
       okFuncs = addOkFuncs qms ∅ → m ∈ qms →
       edge ∈ inEdges (DeleteSyntheticNodes cg) (SSA m) →
       isOk (FindNonConstCalls DeleteSyntheticNodes cg qms) = false).
Proof.
  intros Hsite Hparent.
  rewrite (visitEdge_surviving _ _ _ _ _ Hsite Hparent).
  split; [|split].
  - intros Hlen. destruct (receiverArgs_receiver m _ Hlen) as [Hargs Hdrop].
    by rewrite Hargs.
  - intros Hlen. by rewrite (receiverArgs_plain m _ Hlen).
  - intros Hne Hne'. rewrite (receiverArgs_mismatch m _ Hne Hne').
    split; [done|]. split; [done|].
    intros cg qms -> Hm Hedge.
    destruct (FindNonConstCalls DeleteSyntheticNodes cg qms) as [[v g']|p] eqn:E;
      [|done].
    apply FindNonConstCalls_Ok in E as (Hwf & _).
    apply Hwf, wellFormedEdge_not_fatal in Hedge; [|done].
    by rewrite (classifyEdge_mismatch _ _ _ site) in Hedge.
Qed.

(** C3: the tracked functions are exactly the functions of the catalog,
    compared by identity; an edge whose site lies in one of them is skipped,
    and no site of a tracked function is among the unsafe sites. *)
Theorem forwarding_exclusion
    (DeleteSyntheticNodes : callgraph.Graph → callgraph.Graph)
    (cg : callgraph.Graph) (qms : list QueryMethod) :
  (∀ f, f ∈ addOkFuncs qms ∅ ↔ ∃ m, m ∈ qms ∧ SSA m = f) ∧
  (∀ m edge site acc,
     callgraph.Site edge = Some site →
     (∃ m', m' ∈ qms ∧ SSA m' = ssa.Parent site) →
     visitEdge (addOkFuncs qms ∅) m edge acc = Ok acc) ∧
  (∀ v g' site,
     FindNonConstCalls DeleteSyntheticNodes cg qms = Ok (v, g') →
     site ∈ bad v → ∀ m, m ∈ qms → SSA m ≠ ssa.Parent site).
Proof.
  split; [apply elem_of_okFuncs|]. split.
  - intros m edge site acc Hsite Hsink.
    apply (visitEdge_forwarded _ _ _ site); [done|]. by apply elem_of_okFuncs.
  - intros v g' site (_ & Hbad & _)%FindNonConstCalls_Ok Hin m Hm Heq.
    rewrite Hbad in Hin.
    apply list_elem_of_bind in Hin as (m' & Hin & _).
    apply list_elem_of_omap in Hin as (e & _ & Hclass).
    pose proof (classifyEdge_cases (addOkFuncs qms ∅) m' e) as Hcases.
    destruct (classifyEdge (addOkFuncs qms ∅) m' e); try done.
    simpl in Hclass. simplify_eq. destruct Hcases as (_ & Hnot & _).
    apply Hnot, elem_of_okFuncs. by exists m.
Qed.

(** C10: an edge whose site lies in a tracked function leaves both lists as
    they are, whatever it passes, and every text among the constant queries
    is the cleaned constant of an edge whose site lies in no tracked
    function. *)
Theorem forwarded_edges_add_nothing
    (DeleteSyntheticNodes : callgraph.Graph → callgraph.Graph)
    (cg : callgraph.Graph) (qms : list QueryMethod) :
  (∀ m edge site acc,
     callgraph.Site edge = Some site →
     (∃ m', m' ∈ qms ∧ SSA m' = ssa.Parent site) →
     visitEdge (addOkFuncs qms ∅) m edge acc = Ok acc) ∧
  (∀ v g' text,
     FindNonConstCalls DeleteSyntheticNodes cg qms = Ok (v, g') →
     text ∈ queries v →
     ∃ m edge site args c,
       m ∈ qms ∧ edge ∈ inEdges (DeleteSyntheticNodes cg) (SSA m) ∧
       callgraph.Site edge = Some site ∧
       (∀ m', m' ∈ qms → SSA m' ≠ ssa.Parent site) ∧
       receiverArgs m (ssa.Args site) = Ok args ∧
       args !! Param m = Some (ssa.Const (Some c)) ∧
       text = clean (ssa.ExactString c)).
Proof.
  split.
  - intros m edge site acc Hsite Hsink.
    apply (visitEdge_forwarded _ _ _ site); [done|]. by apply elem_of_okFuncs.
  - intros v g' text (_ & _ & Hq & _)%FindNonConstCalls_Ok Hin.
    rewrite Hq in Hin.
    apply list_elem_of_bind in Hin as (m & Hin & Hm).
    apply list_elem_of_omap in Hin as (e & He & Hclass).
    pose proof (classifyEdge_cases (addOkFuncs qms ∅) m e) as Hcases.
    destruct (classifyEdge (addOkFuncs qms ∅) m e); try done.
    simpl in Hclass. simplify_eq.
    destruct Hcases as (site & args & c & Hsite & Hnot & Hargs & Harg & ->).
    exists m, e, site, args, c. repeat split; try done.
    intros m' Hm' Heq. apply Hnot, elem_of_okFuncs. by exists m'.
Qed.

Lemma omap_surviving {A} okFuncs m (f : EdgeClass → option A)
    (edges : list callgraph.Edge) :
  f Forwarded = None →
  omap (λ me : QueryMethod * callgraph.Edge, f (classifyEdge okFuncs me.1 me.2))
       ((λ e, (m, e)) <$>
          filter (λ e, isForwarded (classifyEdge okFuncs m e) = false) edges)
  = omap (λ e, f (classifyEdge okFuncs m e)) edges.
Proof.
  intros Hf. induction edges as [|e rest IH]; [done|].
  rewrite filter_cons. cbn [omap list_omap]. case_decide as Hfw.
  - rewrite fmap_cons. cbn [omap list_omap fst snd]. by rewrite IH.
  - rewrite IH. destruct (classifyEdge okFuncs m e); try done. by rewrite Hf.
Qed.

Lemma omap_app_list {A B} (f : A → option B) (l1 l2 : list A) :
  omap f (l1 ++ l2) = omap f l1 ++ omap f l2.
Proof. apply omap_app. Qed.

Lemma omap_survivingEdges {A} okFuncs g (f : EdgeClass → option A) qms :
  f Forwarded = None →
  omap (λ me : QueryMethod * callgraph.Edge, f (classifyEdge okFuncs me.1 me.2))
       (survivingEdges okFuncs g qms)
  = qms ≫= λ m, omap (λ e, f (classifyEdge okFuncs m e)) (inEdges g (SSA m)).
Proof.
  intros Hf. unfold survivingEdges.
  induction qms as [|m rest IH]; [done|].
  by rewrite !bind_cons, omap_app_list, IH, omap_surviving.
Qed.




Lemma length_filter_omap {A} (f : A → option GoString.t) (text : GoString.t)
    (l : list A) :
  length (filter (λ q : GoString.t, q = text) (omap f l))
  = length (filter (λ x, f x = Some text) l).
Proof.
  induction l as [|x rest IH]; [done|].
  cbn [omap list_omap]. rewrite (filter_cons _ x).
  destruct (f x) as [q|] eqn:E.
  - rewrite filter_cons. destruct (decide (q = text)) as [->|Hne].
    + rewrite decide_True by done. simpl. by rewrite IH.
    + rewrite decide_False by congruence. done.
  - by rewrite decide_False by done.
Qed.

(** C2, as the code has it: the constant queries are a list with one entry
    for every edge that is not skipped and passes a constant, so a text
    occurs in it as often as there are such edges that carry it; nothing
    removes repeated texts. *)
Theorem queries_one_per_constant_edge
    (DeleteSyntheticNodes : callgraph.Graph → callgraph.Graph)
    (cg : callgraph.Graph) (qms : list QueryMethod)
    (v : Verdict) (g' : callgraph.Graph) (text : GoString.t) :
  FindNonConstCalls DeleteSyntheticNodes cg qms = Ok (v, g') →
  length (filter (λ q : GoString.t, q = text) (queries v))
  = length (filter
      (λ me : QueryMethod * callgraph.Edge,
         constantOf (classifyEdge (addOkFuncs qms ∅) me.1 me.2) = Some text)
      (survivingEdges (addOkFuncs qms ∅) (DeleteSyntheticNodes cg) qms)).
Proof.
  intros (_ & _ & Hq & _)%FindNonConstCalls_Ok.
  rewrite Hq, <- (omap_survivingEdges _ (DeleteSyntheticNodes cg)) by done.
  apply length_filter_omap.
Qed.

(** C2 fails as stated: the same constant at two call sites is listed
    twice. *)
Lemma queries_not_deduplicated :
  ∃ v g',
    FindNonConstCalls Example.keep Example.cg Example.qms = Ok (v, g') ∧
    ¬ NoDup (queries v).
Proof.
  eexists _, _. split; [vm_compute; reflexivity|].
  simpl. intros [Hnot _]%NoDup_cons. apply Hnot. by left.
Qed.





Lemma classifyEdge_in_range okFuncs m edge :
  Param m < ArgCount m → classifyEdge okFuncs m edge ≠ Fatal IndexOutOfRange.
Proof.
  intros Hlt Hfatal.
  pose proof (classifyEdge_cases okFuncs m edge) as H. rewrite Hfatal in H.
  destruct H as [[_ ?]|(site & _ & _ & [[_ ?]|(args & Hargs & [[Hnone _]|[_ ?]])])];
    try done.
  apply receiverArgs_Ok in Hargs. apply lookup_ge_None in Hnone. lia.
Qed.

(** C9: in every entry of the catalog [Param] is less than [ArgCount], so
    the argument list that the receiver test lets through has an element
    at [Param], and a run over the catalog never stops on an index out of
    range. *)
Theorem sensitive_index_in_range
    (DeleteSyntheticNodes : callgraph.Graph → callgraph.Graph)
    (sql : types.Package) (prog : ssa.Program) (cg : callgraph.Graph) :
  (∀ qm, qm ∈ FindQueryMethods sql prog → Param qm < ArgCount qm) ∧
  (∀ qm args args',
     qm ∈ FindQueryMethods sql prog → receiverArgs qm args = Ok args' →
     length args' = ArgCount qm ∧ ∃ v, index args' (Param qm) = Ok v) ∧
  FindNonConstCalls DeleteSyntheticNodes cg (FindQueryMethods sql prog)
  ≠ Panic IndexOutOfRange.
Proof.
  split; [apply FindQueryMethods_in_range|]. split.
  - intros qm args args' Hqm%FindQueryMethods_in_range Hargs%receiverArgs_Ok.
    split; [done|]. unfold index.
    destruct (lookup_lt_is_Some_2 args' (Param qm)) as [v ->]; [lia|by exists v].
  - intros (m & e & Hm%FindQueryMethods_in_range & _ & Hfatal)%FindNonConstCalls_Panic.
    by eapply classifyEdge_in_range.
Qed.

(** ** The claims about the catalog and the commands *)

Lemma queryMethodOf_exactly_one prog m qm :
  distinctParamNames (types.FuncType m) →
  queryMethodOf prog m = Some qm ↔
  types.FuncExported m = true ∧
  ∃ i v,
    types.Params (types.FuncType m) !! i = Some v ∧
    types.Name v = "query" ∧ types.Typ v = types.stringType ∧
    (∀ j w, types.Params (types.FuncType m) !! j = Some w →
            types.Name w = "query" → types.Typ w = types.stringType → j = i) ∧
    qm = {| Func := m; SSA := ssa.FuncValue prog m;
            ArgCount := length (types.Params (types.FuncType m));
            Param := i |}.
Proof.
  intros Hnames. rewrite queryMethodOf_Some. split.
  - intros (Em & i & v & Hi & [Hn Ht]%isQueryParam_spec & _ & ->).
    split; [done|]. exists i, v. repeat split; try done.
    intros j w Hj Hw _. symmetry.
    apply (Hnames i j v w Hi Hj); [congruence|by rewrite Hn..].
  - intros (Em & i & v & Hi & Hn & Ht & Huniq & ->). split; [done|].
    exists i, v. repeat split; [done|by apply isQueryParam_spec|].
    intros j w Hlt Hj. destruct (isQueryParam w) eqn:Ew; [|done].
    apply isQueryParam_spec in Ew as [Hwn Hwt].
    specialize (Huniq j w Hj Hwn Hwt). lia.
Qed.

Lemma anyscope_scanScope_cons prog o rest methods :
  anyscope.scanScope prog (o :: rest) methods =
  if decide (isExportedAlias o) then None
  else anyscope.scanScope prog rest (methods ++ anyMethodsOf prog o).
Proof.
  destruct (decide (isExportedAlias o)) as [(Eo & t & Ek)|Hno].
  { simpl. by rewrite Eo, Ek. }
  simpl. unfold anyMethodsOf.
  destruct (types.AnyExported o) eqn:Eo; simpl; [|by rewrite app_nil_r].
  destruct (types.AnyKindOf o) as [[n ims|t]| | |] eqn:Ek;
    rewrite ?app_nil_r; try done.
  - by rewrite appendQueryMethods_closed.
  - destruct Hno. split; [done|]. by exists t.
Qed.

Lemma anyscope_scanScope_Some prog objs : ∀ methods,
  (∀ o, o ∈ objs → ¬ isExportedAlias o) →
  anyscope.scanScope prog objs methods
  = Some (methods ++ (objs ≫= anyMethodsOf prog)).
Proof.
  induction objs as [|o rest IH]; intros methods Hall.
  { simpl. by rewrite app_nil_r. }
  rewrite anyscope_scanScope_cons.
  rewrite decide_False by (apply Hall; by left).
  rewrite IH by (intros o' Ho'; apply Hall; by right).
  by rewrite bind_cons, app_assoc.
Qed.

Lemma anyscope_scanScope_None prog objs : ∀ methods,
  (∃ o, o ∈ objs ∧ isExportedAlias o) →
  anyscope.scanScope prog objs methods = None.
Proof.
  induction objs as [|o rest IH]; intros methods (o' & Ho' & Halias).
  { by apply elem_of_nil in Ho'. }
  rewrite anyscope_scanScope_cons.
  destruct (decide (isExportedAlias o)); [done|].
  apply IH. apply elem_of_cons in Ho' as [->|Ho']; [done|]. by exists o'.
Qed.

(** C4, as the code has it: on a scope in which every exported type name
    denotes a named type, and whose signatures name their parameters apart
    as Go demands, [FindQueryMethods] returns a catalog that holds exactly
    the exported explicit methods of the exported named types that have
    exactly one parameter named [query] of type [string], each with the
    number of its parameters and the index of that parameter; every other
    method is left out, the methods of interface types among them. *)
Theorem FindQueryMethods_catalog
    (scope : types.AnyScope) (prog : ssa.Program) :
  (∀ o, o ∈ scope → ¬ isExportedAlias o) →
  (∀ o n ims m, o ∈ scope →
     types.AnyKindOf o = types.AnyTypeName (types.IsNamed n ims) →
     m ∈ types.Methods n → distinctParamNames (types.FuncType m)) →
  ∃ methods,
    anyscope.FindQueryMethods scope prog = Some methods ∧
    ∀ qm,
      qm ∈ methods ↔
      ∃ o n ims m i v,
        o ∈ scope ∧ types.AnyExported o = true ∧
        types.AnyKindOf o = types.AnyTypeName (types.IsNamed n ims) ∧
        m ∈ types.Methods n ∧ types.FuncExported m = true ∧
        types.Params (types.FuncType m) !! i = Some v ∧
        types.Name v = "query" ∧ types.Typ v = types.stringType ∧
        (∀ j w, types.Params (types.FuncType m) !! j = Some w →
                types.Name w = "query" → types.Typ w = types.stringType →
                j = i) ∧
        qm = {| Func := m; SSA := ssa.FuncValue prog m;
                ArgCount := length (types.Params (types.FuncType m));
                Param := i |}.
Proof.
  intros Hnamed Hnames. eexists. split.
  { unfold anyscope.FindQueryMethods. by apply anyscope_scanScope_Some. }
  intros qm. simpl. rewrite list_elem_of_bind. split.
  - intros (o & Hqm & Ho). unfold anyMethodsOf in Hqm.
    destruct (types.AnyExported o) eqn:Eo; [|by apply elem_of_nil in Hqm].
    destruct (types.AnyKindOf o) as [[n ims|t]| | |] eqn:Ek;
      try by apply elem_of_nil in Hqm.
    apply list_elem_of_omap in Hqm as (m & Hm & Hq).
    apply queryMethodOf_exactly_one in Hq as (Em & i & v & ?); [|by eauto].
    by exists o, n, ims, m, i, v.
  - intros (o & n & ims & m & i & v & Ho & Eo & Ek & Hm & Em & Hrest).
    exists o. split; [|done]. unfold anyMethodsOf. rewrite Eo, Ek.
    apply list_elem_of_omap. exists m. split; [done|].
    apply queryMethodOf_exactly_one; [by eauto|]. split; [done|]. by exists i, v.
Qed.

(** C4 fails as stated: the exported method of an exported interface type
    has its one parameter named [query] of type [string] and is not in
    the catalog. *)
Lemma interface_methods_left_out :
  ∃ o n ims m,
    o ∈ ExampleRun.queryerScope ∧ types.AnyExported o = true ∧
    types.AnyKindOf o = types.AnyTypeName (types.IsNamed n ims) ∧
    m ∈ ims ∧ types.FuncExported m = true ∧
    filter (λ v, isQueryParam v = true) (types.Params (types.FuncType m))
    = [Example.queryVar] ∧
    FuncHasQuery (types.FuncType m) = (0, true) ∧
    anyscope.FindQueryMethods ExampleRun.queryerScope Example.prog = Some [].
Proof.
  eexists _, _, _, Example.Query.
  split; [by left|]. split; [reflexivity|]. split; [reflexivity|].
  split; [by left|]. split; [reflexivity|].
  split; [vm_compute; reflexivity|]. split; vm_compute; reflexivity.
Qed.

Lemma appendMains_closed s ips : ∀ mains,
  (∀ info, info ∈ ips → is_Some (ssa.PackageOf s (loader.Pkg info))) →
  appendMains s ips mains = Ok (mains ++ omap (mainPackage s) ips).
Proof.
  induction ips as [|info rest IH]; intros mains Hall.
  { simpl. by rewrite app_nil_r. }
  destruct (Hall info (list_elem_of_here _ _)) as [pkg Hpkg].
  cbn [appendMains omap list_omap]. unfold mainPackage at 1.
  rewrite Hpkg. simpl.
  destruct (ssa.Func pkg "main").
  - rewrite IH by (intros i Hi; apply Hall; by right). by rewrite <- app_assoc.
  - apply IH. intros i Hi. apply Hall. by right.
Qed.

Lemma Func_Some pkg name :
  is_Some (ssa.Func pkg name) ↔
  ∃ fn sig, ssa.Members pkg !! name = Some (ssa.MFunction fn sig).
Proof.
  unfold ssa.Func.
  destruct (ssa.Members pkg !! name) as [[fn sig| | |]|];
    (split; [intros [? ?]; try done; by exists fn, sig
            |intros (? & ? & ?); try done; by eexists]).
Qed.

Lemma elem_of_mainPackages s (ips : list loader.PackageInfo) pkg :
  pkg ∈ omap (mainPackage s) ips ↔
  ∃ info fn sig,
    info ∈ ips ∧
    ssa.PackageOf s (loader.Pkg info) = Some pkg ∧
    ssa.Members pkg !! "main" = Some (ssa.MFunction fn sig).
Proof.
  rewrite list_elem_of_omap. unfold mainPackage. split.
  - intros (info & Hinfo & Hmain).
    destruct (ssa.PackageOf s (loader.Pkg info)) as [pkg'|] eqn:Epkg; [|done].
    simpl in Hmain. destruct (ssa.Func pkg' "main") as [fn|] eqn:Efn; [|done].
    simplify_eq.
    destruct (proj1 (Func_Some pkg "main")) as (fn' & sig & Hmem); [by rewrite Efn|].
    by exists info, fn', sig.
  - intros (info & fn & sig & Hinfo & Hpkg & Hmem). exists info. split; [done|].
    rewrite Hpkg. simpl. unfold ssa.Func. by rewrite Hmem.
Qed.

Lemma canReturn_elem_of l (ips : list loader.PackageInfo) info :
  loader.canReturn l ips →
  info ∈ ips ↔
  info ∈ loader.Created l ∨ ∃ path, loader.Imported l !! path = Some info.
Proof.
  intros (imported & Hperm & ->). rewrite elem_of_app, Hperm.
  rewrite list_elem_of_fmap. split.
  - intros [?|([path i] & -> & Hin%elem_of_map_to_list)]; [by left|].
    right. by exists path.
  - intros [?|(path & Hpath)]; [by left|]. right.
    exists (path, info). split; [done|]. by apply elem_of_map_to_list.
Qed.

Lemma canReturn_Permutation l ips ips' :
  loader.canReturn l ips → loader.canReturn l ips' → ips ≡ₚ ips'.
Proof.
  intros (imported & Hperm & ->) (imported' & Hperm' & ->).
  by rewrite Hperm, Hperm'.
Qed.

(** C5, as the code has it: when every requested unit has its SSA package,
    [FindMains] returns exactly the packages of those units, created or
    imported, that have a function member named [main]; the parameters of
    that function are not looked at.  Another call may meet the imported
    units in another order and then returns the same packages in another
    order. *)
Theorem FindMains_by_name (l : loader.Loaded) (p p' : loader.Program)
    (s : ssa.Program) :
  loader.canReturn l (loader.InitialPackages p) →
  loader.canReturn l (loader.InitialPackages p') →
  (∀ info, info ∈ loader.InitialPackages p →
           is_Some (ssa.PackageOf s (loader.Pkg info))) →
  ∃ mains mains',
    FindMains p s = Ok mains ∧ FindMains p' s = Ok mains' ∧
    mains ≡ₚ mains' ∧
    ∀ pkg,
      pkg ∈ mains ↔
      ∃ info fn sig,
        (info ∈ loader.Created l
         ∨ ∃ path, loader.Imported l !! path = Some info) ∧
        ssa.PackageOf s (loader.Pkg info) = Some pkg ∧
        ssa.Members pkg !! "main" = Some (ssa.MFunction fn sig).
Proof.
  intros Hp Hp' Hall.
  pose proof (canReturn_Permutation _ _ _ Hp Hp') as Hperm.
  exists (omap (mainPackage s) (loader.InitialPackages p)),
    (omap (mainPackage s) (loader.InitialPackages p')).
  split; [unfold FindMains; by rewrite appendMains_closed|]. split.
  { unfold FindMains. rewrite appendMains_closed; [done|].
    intros info Hinfo. apply Hall. by rewrite Hperm. }
  split; [by rewrite Hperm|].
  intros pkg. rewrite elem_of_mainPackages. split.
  - intros (info & fn & sig & Hinfo & Hpkg & Hmem). exists info, fn, sig.
    split; [by apply (canReturn_elem_of l (loader.InitialPackages p))|done].
  - intros (info & fn & sig & Hinfo & Hpkg & Hmem). exists info, fn, sig.
    split; [by apply (canReturn_elem_of l (loader.InitialPackages p))|done].
Qed.

(** C5 fails as stated: a unit that is not a command may declare a function
    [main] with a parameter, and it is returned all the same. *)
Lemma FindMains_keeps_main_with_parameters :
  FindMains Example.loaded Example.prog = Ok [Example.cmdPkg; Example.toolPkg] ∧
  ssa.Members Example.toolPkg !! "main"
  = Some (ssa.MFunction 11 Example.oneParam) ∧
  length (types.Params Example.oneParam) = 1.
Proof. by vm_compute. Qed.

(** ** The theorems at work on the small program *)

Lemma Example_not_tracked_10 : 10 ∉ addOkFuncs Example.qms ∅.
Proof. rewrite elem_of_okFuncs. intros (m & Hm & Heq). set_unfold in Hm.
  destruct Hm as [->|[->|[]]]; discriminate. Defined.

Lemma Example_not_tracked_11 : 11 ∉ addOkFuncs Example.qms ∅.
Proof. rewrite elem_of_okFuncs. intros (m & Hm & Heq). set_unfold in Hm.
  destruct Hm as [->|[->|[]]]; discriminate. Defined.

Lemma receiver_offset_resolution_witness :
  receiverArgs Example.qmQuery (ssa.Args Example.siteConst)
  = Ok (drop 1 (ssa.Args Example.siteConst)) ∧
  receiverArgs Example.qmQuery (ssa.Args Example.siteConstAgain)
  = Ok (ssa.Args Example.siteConstAgain) ∧
  isOk (FindNonConstCalls Example.keep Example.cgShort Example.qms) = false.
Proof.
  split; [|split].
  - apply (receiver_offset_resolution Example.keep (addOkFuncs Example.qms ∅)
             Example.qmQuery (Example.edgeTo 1 Example.siteConst)
             Example.siteConst Example.noVerdict eq_refl Example_not_tracked_10).
    reflexivity.
  - apply (receiver_offset_resolution Example.keep (addOkFuncs Example.qms ∅)
             Example.qmQuery (Example.edgeTo 1 Example.siteConstAgain)
             Example.siteConstAgain Example.noVerdict eq_refl Example_not_tracked_11).
    reflexivity.
  - apply (receiver_offset_resolution Example.keep (addOkFuncs Example.qms ∅)
             Example.qmQuery (Example.edgeTo 1 Example.siteShort)
             Example.siteShort Example.noVerdict eq_refl Example_not_tracked_10);
      [simpl; lia | simpl; lia | reflexivity | by left |].
    vm_compute. apply list_elem_of_further, list_elem_of_here.
Defined.

Lemma Example_run :
  FindNonConstCalls Example.keep Example.cg Example.qms
  = Ok ({| bad := [Example.siteConcat];
           queries := [GoString.of_string "SELECT 1"; GoString.of_string "SELECT 1"] |},
        createNodes Example.cg Example.qms).
Proof. vm_compute. reflexivity. Defined.


Lemma queries_one_per_constant_edge_witness :
  length (filter (λ q : GoString.t, q = GoString.of_string "SELECT 1")
            [GoString.of_string "SELECT 1"; GoString.of_string "SELECT 1"])
  = length (filter
      (λ me : QueryMethod * callgraph.Edge,
         constantOf (classifyEdge (addOkFuncs Example.qms ∅) me.1 me.2)
         = Some (GoString.of_string "SELECT 1"))
      (survivingEdges (addOkFuncs Example.qms ∅) (Example.keep Example.cg)
         Example.qms)).
Proof.
  exact (queries_one_per_constant_edge Example.keep Example.cg Example.qms
           _ _ (GoString.of_string "SELECT 1") Example_run).
Defined.

Lemma forwarding_exclusion_witness :
  visitEdge (addOkFuncs Example.qms ∅) Example.qmQuery
    (Example.edgeTo 1 Example.siteForward) Example.noVerdict
  = Ok Example.noVerdict ∧
  Example.siteForward ∉ [Example.siteConcat].
Proof.
  destruct (forwarding_exclusion Example.keep Example.cg Example.qms)
    as (_ & Hskip & Hbad).
  split.
  - apply (Hskip _ _ Example.siteForward); [reflexivity|].
    exists Example.qmQueryRow. split; [by right; left|reflexivity].
  - intros Hin.
    apply (Hbad _ _ Example.siteForward Example_run Hin Example.qmQueryRow);
      [by right; left|reflexivity].
Defined.

Lemma forwarded_edges_add_nothing_witness :
  visitEdge (addOkFuncs Example.qms ∅) Example.qmQuery
    (Example.edgeTo 1 Example.siteForwardConst) Example.noVerdict
  = Ok Example.noVerdict ∧
  ∃ m edge site args c,
    m ∈ Example.qms ∧
    edge ∈ inEdges (Example.keep Example.cg) (SSA m) ∧
    callgraph.Site edge = Some site ∧
    (∀ m', m' ∈ Example.qms → SSA m' ≠ ssa.Parent site) ∧
    receiverArgs m (ssa.Args site) = Ok args ∧
    args !! Param m = Some (ssa.Const (Some c)) ∧
    GoString.of_string "SELECT 1" = clean (ssa.ExactString c).
Proof.
  destruct (forwarded_edges_add_nothing Example.keep Example.cg Example.qms)
    as (Hskip & Hfrom).
  split.
  - apply (Hskip _ _ Example.siteForwardConst); [reflexivity|].
    exists Example.qmQueryRow. split; [by right; left|reflexivity].
  - apply (Hfrom _ _ _ Example_run). by left.
Defined.





Lemma Example_catalog :
  FindQueryMethods Example.sql Example.prog = Example.qms.
Proof. vm_compute. reflexivity. Defined.

Lemma sensitive_index_in_range_witness :
  Param Example.qmQuery < ArgCount Example.qmQuery ∧
  ∃ v, index (drop 1 (ssa.Args Example.siteConst)) (Param Example.qmQuery) = Ok v.
Proof.
  destruct (sensitive_index_in_range Example.keep Example.sql Example.prog
              Example.cg) as (Hlt & Hindex & _).
  assert (Hin : Example.qmQuery ∈ FindQueryMethods Example.sql Example.prog).
  { rewrite Example_catalog. by left. }
  split; [by apply Hlt|].
  by apply (Hindex Example.qmQuery (ssa.Args Example.siteConst) _ Hin).
Defined.

Lemma Example_distinctParamNames o n ims m :
  o ∈ ExampleRun.anySql →
  types.AnyKindOf o = types.AnyTypeName (types.IsNamed n ims) →
  m ∈ types.Methods n → distinctParamNames (types.FuncType m).
Proof.
  intros Ho Hk Hm. unfold ExampleRun.anySql in Ho. set_unfold in Ho.
  destruct Ho as [->|[->|[->|[]]]]; simpl in Hk; simplify_eq; simpl in Hm;
    set_unfold in Hm; destruct_or!; try done; subst m;
    intros [|[|i]] [|[|j]] v w Hi Hj Hname _ _; simpl in *; by simplify_eq.
Defined.

Lemma Example_no_alias o : o ∈ ExampleRun.anySql → ¬ isExportedAlias o.
Proof.
  intros Ho (_ & t & Ht). unfold ExampleRun.anySql in Ho. set_unfold in Ho.
  destruct Ho as [->|[->|[->|[]]]]; discriminate Ht.
Defined.

Lemma FindQueryMethods_catalog_witness :
  ∃ methods,
    anyscope.FindQueryMethods ExampleRun.anySql Example.prog = Some methods ∧
    Example.qmQueryRow ∈ methods.
Proof.
  destruct (FindQueryMethods_catalog ExampleRun.anySql Example.prog
              Example_no_alias Example_distinctParamNames)
    as (methods & Hok & Hin).
  exists methods. split; [done|]. apply Hin.
  eexists _, _, _, Example.QueryRow, 0, Example.queryVar.
  split; [by left|]. split; [reflexivity|]. split; [reflexivity|].
  split; [by right; right; left|]. repeat split.
  intros [|[|j]] w Hj Hn Ht; simpl in *; by simplify_eq.
Defined.

Lemma Example_packages info :
  info ∈ loader.InitialPackages Example.loaded →
  is_Some (ssa.PackageOf Example.prog (loader.Pkg info)).
Proof.
  intros Hinfo. simpl in Hinfo. set_unfold in Hinfo.
  destruct Hinfo as [->|[->|[->|[]]]]; vm_compute; by eexists.
Defined.

Lemma Example_canReturn :
  loader.canReturn ExampleRun.held (loader.InitialPackages Example.loaded).
Proof.
  exists (loader.InitialPackages Example.loaded). split; [|reflexivity].
  vm_compute. solve_Permutation.
Defined.

Lemma Example_canReturn_again :
  loader.canReturn ExampleRun.held (loader.InitialPackages ExampleRun.loadedAgain).
Proof.
  exists (loader.InitialPackages ExampleRun.loadedAgain). split; [|reflexivity].
  vm_compute. solve_Permutation.
Defined.

Lemma FindMains_by_name_witness :
  ∃ mains mains',
    FindMains Example.loaded Example.prog = Ok mains ∧
    FindMains ExampleRun.loadedAgain Example.prog = Ok mains' ∧
    mains ≡ₚ mains' ∧
    Example.toolPkg ∈ mains.
Proof.
  destruct (FindMains_by_name ExampleRun.held Example.loaded ExampleRun.loadedAgain
              Example.prog Example_canReturn Example_canReturn_again
              Example_packages)
    as (mains & mains' & Hok & Hok' & Hperm & Hin).
  exists mains, mains'. split; [done|]. split; [done|]. split; [done|].
  apply Hin.
  exists {| loader.Pkg := Example.typesPkg "example.com/tool" "tool" |},
    11, Example.oneParam.
  split; [|split; reflexivity]. right. exists "example.com/tool". reflexivity.
Defined.

(** * Further properties of the code *)

(** ** The cleaned text *)

Lemma replaced_clean s : replaced false (clean s) = true.
Proof. apply replaced_TrimSpace, replaced_replaceFrom. Qed.

Lemma clean_fixed s : clean (clean s) = clean s.
Proof.
  unfold clean at 1. unfold GoString.ReplaceAllString.
  rewrite (replaced_fixed _ _ (replaced_clean s)). apply TrimSpace_idem.
Qed.

Lemma replaced_class_byte s : ∀ b c,
  replaced b s = true → c ∈ s → GoString.isClassByte c = true → c = x20.
Proof.
  induction s as [|c' rest IH]; intros b c Hs Hc Hclass.
  { by apply elem_of_nil in Hc. }
  apply elem_of_cons in Hc as [->|Hc].
  - simpl in Hs. rewrite Hclass in Hs.
    apply andb_prop in Hs as [[Hsp _]%andb_prop _]. by destruct c'.
  - apply replaced_tail in Hs. by apply (IH false).
Qed.

Lemma replaced_pair b c d q :
  replaced b (c :: d :: q) = true →
  GoString.isClassByte c && GoString.isClassByte d = false ∧
  GoString.isEscape c d = false.
Proof.
  simpl. destruct (GoString.isClassByte c) eqn:Ec.
  - intros [[Hsp _]%andb_prop Hrest]%andb_prop.
    destruct (GoString.isClassByte d) eqn:Ed.
    + by rewrite andb_false_r in Hrest.
    + split; [done|]. unfold GoString.isEscape.
      destruct c; try discriminate. done.
  - intros [Hesc%negb_true_iff _]%andb_prop. done.
Qed.

(** X1: every byte of the class of the pattern that is left in a cleaned
    text is a space: the text holds no double quote, tab, newline, form feed or
    carriage return. *)
Theorem clean_class_bytes_are_spaces (s : GoString.t) (c : byte) :
  c ∈ clean s → GoString.isClassByte c = true → c = x20.
Proof. apply replaced_class_byte with (b := false), replaced_clean. Qed.

(** X2: in a cleaned text no two bytes in a row are both bytes of the class
    of the pattern (tab, newline, form feed, carriage return, space, double
    quote), so no space follows a space, and no backslash is followed by
    [n], [t] or [r]: the pattern matches nothing longer than one space. *)
Theorem clean_no_run (s p q : GoString.t) (c d : byte) :
  clean s = p ++ c :: d :: q →
  GoString.isClassByte c && GoString.isClassByte d = false ∧
  GoString.isEscape c d = false.
Proof.
  intros Hs. pose proof (replaced_clean s) as H. rewrite Hs in H.
  apply replaced_suffix in H. by apply replaced_pair in H.
Qed.

Section TrimEnds.
Variable sp1 : byte → bool.
Variable sp2 : byte → byte → bool.
Variable sp3 : byte → byte → byte → bool.

Lemma startsSpace_head s c rest :
  GoString.startsSpace sp1 sp2 sp3 s = false → s = c :: rest → sp1 c = false.
Proof.
  intros H ->. destruct rest as [|d [|e rest]]; simpl in H.
  - done.
  - by apply orb_false_elim in H as [? _].
  - by apply orb_false_elim in H as [[? _]%orb_false_elim _].
Qed.

Lemma length_trimFront s : length (GoString.trimFront sp1 sp2 sp3 s) ≤ length s.
Proof.
  destruct (trimFront_suffix sp1 sp2 sp3 s) as [p Hp].
  rewrite Hp at 2. rewrite length_app. lia.
Qed.
End TrimEnds.

Lemma TrimSpace_TrimLeftSpace s :
  GoString.TrimLeftSpace (GoString.TrimSpace s) = GoString.TrimSpace s.
Proof. apply TrimLeftSpace_TrimRightSpace. Qed.

Lemma TrimSpace_TrimRightSpace s :
  GoString.TrimRightSpace (GoString.TrimSpace s) = GoString.TrimSpace s.
Proof. apply TrimRightSpace_idem. Qed.

Lemma TrimSpace_first s c rest :
  GoString.TrimSpace s = c :: rest → GoString.isSpace1 c = false.
Proof.
  intros Hs. eapply startsSpace_head; [|exact Hs].
  rewrite <- TrimSpace_TrimLeftSpace. apply trimFront_starts.
Qed.

Lemma TrimSpace_last s p c :
  GoString.TrimSpace s = p ++ [c] → GoString.isSpace1 c = false.
Proof.
  intros Hs.
  eapply (startsSpace_head _ _ _ (rev (GoString.TrimSpace s)) c (rev p)).
  - rewrite <- (TrimSpace_TrimRightSpace s) at 1.
    unfold GoString.TrimRightSpace at 1. rewrite rev_involutive.
    apply trimFront_starts.
  - rewrite Hs, rev_app_distr. done.
Qed.

(** X3: a cleaned text neither begins nor ends with white space (tab,
    newline, vertical tab, form feed, carriage return or space), and
    trimming it again changes nothing. *)
Theorem clean_trimmed (s : GoString.t) :
  (∀ c rest, clean s = c :: rest → GoString.isSpace1 c = false) ∧
  (∀ p c, clean s = p ++ [c] → GoString.isSpace1 c = false) ∧
  GoString.TrimSpace (clean s) = clean s.
Proof.
  split; [|split].
  - intros c rest. apply TrimSpace_first.
  - intros p c. apply TrimSpace_last.
  - apply TrimSpace_idem.
Qed.

Lemma length_emitSpace b out : length (GoString.emitSpace b out) ≤ S (length out).
Proof. destruct b; simpl; lia. Qed.

Lemma length_replaceFrom s : ∀ b, length (GoString.replaceFrom b s) ≤ length s.
Proof.
  remember (length s) as n eqn:Hn. revert s Hn.
  induction n as [n IH] using lt_wf_ind. intros s Hn b.
  destruct s as [|c rest]; [simpl; lia|]. simpl in Hn. simpl.
  destruct (GoString.isClassByte c).
  { pose proof (length_emitSpace b (GoString.replaceFrom true rest)).
    pose proof (IH (length rest) ltac:(lia) rest eq_refl true). lia. }
  destruct rest as [|d rest']; [simpl; lia|].
  destruct (GoString.isEscape c d).
  - pose proof (length_emitSpace b (GoString.replaceFrom true rest')).
    pose proof (IH (length rest') ltac:(simpl in *; lia) rest' eq_refl true).
    simpl in *. lia.
  - pose proof (IH (length (d :: rest')) ltac:(lia) (d :: rest') eq_refl false).
    simpl in *. lia.
Qed.

(** X4: cleaning never makes a text longer. *)
Theorem clean_length_le (s : GoString.t) : length (clean s) ≤ length s.
Proof.
  unfold clean, GoString.TrimSpace, GoString.TrimRightSpace, GoString.TrimLeftSpace.
  rewrite length_rev.
  etrans; [apply length_trimFront|]. rewrite length_rev.
  etrans; [apply length_trimFront|]. apply length_replaceFrom.
Qed.

Lemma isSpace2_space c : GoString.isSpace2 c x20 = false.
Proof. by destruct c. Qed.

Lemma isSpace3_space c d : GoString.isSpace3 c d x20 = false.
Proof.
  destruct (GoString.isSpace3 c d x20) eqn:E; [|done].
  destruct c; try discriminate; destruct d; discriminate.
Qed.

Lemma replaced_clean_fixed s :
  clean s = s → replaced false s = true ∧ GoString.TrimSpace s = s.
Proof.
  intros Hs. split.
  - rewrite <- Hs. apply replaced_clean.
  - rewrite <- Hs at 1. unfold clean. rewrite TrimSpace_idem. exact Hs.
Qed.

Lemma replaced_from_match s :
  replaced false s = true →
  (∀ c rest, s = c :: rest → GoString.isSpace1 c = false) →
  replaced true s = true.
Proof.
  intros Hs Hfirst. destruct s as [|c rest]; [done|].
  simpl in *. destruct (GoString.isClassByte c); [|done].
  apply andb_prop in Hs as [[Hsp _]%andb_prop _].
  specialize (Hfirst c rest eq_refl). by destruct c.
Qed.

Lemma replaceFrom_cons_class b c rest :
  GoString.isClassByte c = true →
  GoString.replaceFrom b (c :: rest)
  = GoString.emitSpace b (GoString.replaceFrom true rest).
Proof. intros Hc. simpl. by rewrite Hc. Qed.

Lemma replaceFrom_cons_other b c d rest :
  GoString.isClassByte c = false → GoString.isEscape c d = false →
  GoString.replaceFrom b (c :: d :: rest)
  = c :: GoString.replaceFrom false (d :: rest).
Proof. intros Hc Hd. simpl. by rewrite Hc, Hd. Qed.

(** After a text that ends outside a match the closing quote is replaced by
    one space. *)
Lemma replaceFrom_closing_quote s : ∀ b c rest,
  s = c :: rest →
  replaced b s = true →
  (∀ p e, s = p ++ [e] → GoString.isSpace1 e = false) →
  GoString.replaceFrom b (s ++ [x22]) = s ++ [x20].
Proof.
  induction s as [|c' rest' IH]; intros b c rest [= <- <-] Hs Hlast.
  simpl in Hs. destruct (GoString.isClassByte c') eqn:Ec.
  - apply andb_prop in Hs as [[Hsp Hb%negb_true_iff]%andb_prop Hrest]. subst b.
    assert (c' = x20) as -> by (by destruct c').
    destruct rest' as [|d r].
    { by specialize (Hlast [] x20 eq_refl). }
    change ((x20 :: d :: r) ++ [x22]) with (x20 :: ((d :: r) ++ [x22])).
    rewrite replaceFrom_cons_class by done.
    rewrite (IH true d r eq_refl Hrest); [done|].
    intros p e Hp. apply (Hlast (x20 :: p) e). by rewrite Hp.
  - destruct rest' as [|d r].
    + change ([c'] ++ [x22]) with [c'; x22].
      rewrite replaceFrom_cons_other; [done..|].
      unfold GoString.isEscape. by rewrite andb_false_r.
    + apply andb_prop in Hs as [Hd%negb_true_iff Hrest].
      change ((c' :: d :: r) ++ [x22]) with (c' :: d :: (r ++ [x22])).
      rewrite replaceFrom_cons_other by done.
      change (d :: (r ++ [x22])) with ((d :: r) ++ [x22]).
      rewrite (IH false d r eq_refl Hrest); [done|].
      intros p e Hp. apply (Hlast (c' :: p) e). by rewrite Hp.
Qed.

Lemma TrimSpace_between_spaces s :
  GoString.TrimSpace s = s → GoString.TrimSpace (x20 :: s ++ [x20]) = s.
Proof.
  intros Hs. destruct s as [|c rest]; [done|].
  assert (Hleft : GoString.TrimLeftSpace (c :: rest) = c :: rest).
  { rewrite <- Hs. apply TrimSpace_TrimLeftSpace. }
  assert (Hright : GoString.TrimRightSpace (c :: rest) = c :: rest).
  { rewrite <- Hs. apply TrimSpace_TrimRightSpace. }
  unfold GoString.TrimSpace.
  assert (GoString.TrimLeftSpace (x20 :: (c :: rest) ++ [x20]) = (c :: rest) ++ [x20])
    as ->.
  { change (GoString.TrimLeftSpace (x20 :: (c :: rest) ++ [x20]))
      with (GoString.TrimLeftSpace ((c :: rest) ++ [x20])).
    apply trimFront_fixed.
    pose proof (trimFront_starts GoString.isSpace1 GoString.isSpace2
                  GoString.isSpace3 (c :: rest)) as Hstart.
    fold (GoString.TrimLeftSpace (c :: rest)) in Hstart. rewrite Hleft in Hstart.
    destruct rest as [|d [|e rest]]; simpl in *.
    - by rewrite Hstart, isSpace2_space.
    - by rewrite Hstart, isSpace3_space.
    - done. }
  unfold GoString.TrimRightSpace. rewrite rev_app_distr.
  change (rev [x20] ++ rev (c :: rest)) with (x20 :: rev (c :: rest)).
  change (GoString.trimFront GoString.isSpace1 (λ d c0, GoString.isSpace2 c0 d)
            (λ e d c0, GoString.isSpace3 c0 d e) (x20 :: rev (c :: rest)))
    with (GoString.trimFront GoString.isSpace1 (λ d c0, GoString.isSpace2 c0 d)
            (λ e d c0, GoString.isSpace3 c0 d e) (rev (c :: rest))).
  exact Hright.
Qed.

(** X5: a text that cleaning leaves as it is, written between double
    quotes as [ExactString] does for a string constant without characters
    to escape, is cleaned to the text itself. *)
Theorem clean_quoted (s : GoString.t) :
  clean s = s → clean (x22 :: s ++ [x22]) = s.
Proof.
  intros [Hs Htrim]%replaced_clean_fixed.
  destruct s as [|c rest]; [done|].
  unfold clean, GoString.ReplaceAllString.
  change (x22 :: (c :: rest) ++ [x22]) with (x22 :: ((c :: rest) ++ [x22])).
  cbn [GoString.replaceFrom GoString.isClassByte GoString.emitSpace].
  rewrite (replaceFrom_closing_quote (c :: rest) true c rest eq_refl).
  - by apply TrimSpace_between_spaces.
  - apply replaced_from_match; [done|].
    intros c' rest' Heq. apply (TrimSpace_first (c :: rest) c' rest'). by rewrite Htrim.
  - intros p e Hp. apply (TrimSpace_last (c :: rest) p e). by rewrite Htrim.
Qed.

Lemma replaceFrom_blank s : ∀ b,
  Forall (λ c, GoString.isClassByte c = true) s →
  GoString.replaceFrom b s = [] ∨ GoString.replaceFrom b s = [x20].
Proof.
  induction s as [|c rest IH]; intros b Hall; [by left|].
  apply Forall_cons in Hall as [Hc Hrest]. simpl. rewrite Hc.
  assert (GoString.replaceFrom true rest = []) as ->.
  { clear IH Hc. induction rest as [|d r IHr]; [done|].
    apply Forall_cons in Hrest as [Hd Hr]. simpl. rewrite Hd. simpl. by apply IHr. }
  destruct b; [by left|by right].
Qed.

(** X6: a text made only of white space and double quotes, such as the
    quoted empty string, is cleaned to the empty text. *)
Theorem clean_blank (s : GoString.t) :
  Forall (λ c, GoString.isClassByte c = true) s → clean s = [].
Proof.
  intros Hall. unfold clean, GoString.ReplaceAllString.
  by destruct (replaceFrom_blank s false Hall) as [-> | ->].
Qed.

(** ** The catalog and the commands, further *)

Lemma hasQueryFrom_none params : ∀ i,
  (∀ v, v ∈ params → isQueryParam v = false) → hasQueryFrom i params = (0, false).
Proof.
  induction params as [|v rest IH]; intros i Hall; [done|]. simpl.
  rewrite (Hall v) by (by left). apply IH. intros w Hw. apply Hall. by right.
Qed.

Lemma isQueryParam_false v :
  isQueryParam v = false ↔
  ¬ (types.Name v = "query" ∧ types.Typ v = types.stringType).
Proof. rewrite <- isQueryParam_spec. by destruct (isQueryParam v). Qed.

(** X7: [FuncHasQuery] answers with the index of the first parameter that
    is named [query] and has the type [string], and with 0 and false
    exactly when the signature has no such parameter. *)
Theorem FuncHasQuery_first (s : types.Signature) (i : nat) :
  (FuncHasQuery s = (i, true) ↔
     (∃ v, types.Params s !! i = Some v ∧
           types.Name v = "query" ∧ types.Typ v = types.stringType) ∧
     (∀ j w, j < i → types.Params s !! j = Some w →
             ¬ (types.Name w = "query" ∧ types.Typ w = types.stringType))) ∧
  (FuncHasQuery s = (i, false) ↔
     i = 0 ∧
     (∀ w, w ∈ types.Params s →
           ¬ (types.Name w = "query" ∧ types.Typ w = types.stringType))).
Proof.
  unfold FuncHasQuery. split; split.
  - intros (k & v & -> & Hk & Hv%isQueryParam_spec & Hfirst)%hasQueryFrom_true.
    split; [by exists v|]. intros j w Hj Hw. apply isQueryParam_false. eauto.
  - intros [(v & Hi & Hv) Hfirst].
    apply (hasQueryFrom_first _ 0 i v); [done|by apply isQueryParam_spec|].
    intros j w Hj Hw. apply isQueryParam_false. eauto.
  - intros [-> Hnone]%hasQueryFrom_false. split; [done|].
    intros w Hw. apply isQueryParam_false. eauto.
  - intros [-> Hnone]. apply hasQueryFrom_none.
    intros v Hv. apply isQueryParam_false. eauto.
Qed.

(** X8: the catalog is built object by object: for a scope that is one
    scope followed by another, it is the catalog of the first followed by
    the catalog of the second. *)
Theorem FindQueryMethods_app (sql sql1 sql2 : types.Package) (prog : ssa.Program) :
  types.PackageScope sql = types.PackageScope sql1 ++ types.PackageScope sql2 →
  FindQueryMethods sql prog
  = FindQueryMethods sql1 prog ++ FindQueryMethods sql2 prog.
Proof. intros Hs. rewrite !FindQueryMethods_closed, Hs. apply bind_app. Qed.

Lemma appendMains_missing s ips : ∀ mains,
  (∃ info, info ∈ ips ∧ ssa.PackageOf s (loader.Pkg info) = None) →
  appendMains s ips mains = Panic NilDereference.
Proof.
  induction ips as [|info rest IH]; intros mains (i & Hi & Hnone).
  { by apply elem_of_nil in Hi. }
  simpl. destruct (ssa.PackageOf s (loader.Pkg info)) as [pkg|] eqn:E; [|done].
  apply elem_of_cons in Hi as [->|Hi]; [congruence|].
  destruct (ssa.Func pkg "main"); apply IH; eauto.
Qed.

(** X9: [FindMains] stops with a nil dereference exactly when one of the
    requested units has no SSA package, and never stops for another
    reason. *)
Theorem FindMains_panics (p : loader.Program) (s : ssa.Program) :
  (FindMains p s = Panic NilDereference ↔
     ∃ info, info ∈ loader.InitialPackages p ∧
             ssa.PackageOf s (loader.Pkg info) = None) ∧
  (∀ e, FindMains p s = Panic e → e = NilDereference).
Proof.
  assert (Hcases :
    (∃ info, info ∈ loader.InitialPackages p ∧
             ssa.PackageOf s (loader.Pkg info) = None) ∨
    (∀ info, info ∈ loader.InitialPackages p →
             is_Some (ssa.PackageOf s (loader.Pkg info)))).
  { induction (loader.InitialPackages p) as [|info rest IH].
    - right. by intros info ?%elem_of_nil.
    - destruct (ssa.PackageOf s (loader.Pkg info)) eqn:E.
      + destruct IH as [(i & Hi & Hnone)|Hall].
        * left. exists i. split; [by right|done].
        * right. intros i [->|Hi]%elem_of_cons; [by rewrite E|by apply Hall].
      + left. exists info. split; [by left|done]. }
  unfold FindMains. destruct Hcases as [Hmissing|Hall].
  - rewrite (appendMains_missing _ _ _ Hmissing). split; [done|]. by intros e [= <-].
  - rewrite (appendMains_closed _ _ _ Hall). split; [|done]. split; [done|].
    intros (info & Hinfo & Hnone). destruct (Hall info Hinfo). congruence.
Qed.

Lemma length_omap_le {A B} (f : A → option B) (l : list A) :
  length (omap f l) ≤ length l.
Proof.
  induction l as [|x rest IH]; [done|].
  cbn [omap list_omap]. destruct (f x); simpl; lia.
Qed.

Lemma sublist_omap_mainPackage s ips :
  omap (mainPackage s) ips
  `sublist_of` omap (λ info, ssa.PackageOf s (loader.Pkg info)) ips.
Proof.
  induction ips as [|info rest IH]; [done|].
  cbn [omap list_omap]. unfold mainPackage at 1.
  destruct (ssa.PackageOf s (loader.Pkg info)) as [pkg|]; simpl; [|done].
  destruct (ssa.Func pkg "main"); [by apply sublist_skip|by apply sublist_cons].
Qed.

(** X10: whatever the order in which the call meets the units that the
    loader holds, [FindMains] returns at most one package for each of them:
    the result is, up to order, part of the list of their SSA packages, and
    never longer than the list of the units. *)
Theorem FindMains_one_per_unit (l : loader.Loaded) (p : loader.Program)
    (s : ssa.Program) (mains : list ssa.Package) :
  loader.canReturn l (loader.InitialPackages p) →
  FindMains p s = Ok mains →
  mains ⊆+ omap (λ info, ssa.PackageOf s (loader.Pkg info))
             (loader.Created l ++ (map_to_list (loader.Imported l)).*2) ∧
  length mains
  ≤ length (loader.Created l) + size (loader.Imported l).
Proof.
  intros Hp Hok.
  assert (Hall : ∀ info, info ∈ loader.InitialPackages p →
                         is_Some (ssa.PackageOf s (loader.Pkg info))).
  { intros info Hinfo.
    destruct (ssa.PackageOf s (loader.Pkg info)) eqn:E; [by eexists|].
    unfold FindMains in Hok. rewrite appendMains_missing in Hok; [done|eauto]. }
  unfold FindMains in Hok. rewrite (appendMains_closed _ _ _ Hall) in Hok.
  simplify_eq. simpl.
  assert (Hperm : loader.InitialPackages p
                  ≡ₚ loader.Created l ++ (map_to_list (loader.Imported l)).*2).
  { destruct Hp as (imported & Himp & ->). by rewrite Himp. }
  split.
  - rewrite <- Hperm. apply sublist_submseteq, sublist_omap_mainPackage.
  - etrans; [apply length_omap_le|].
    rewrite Hperm, length_app, length_fmap, length_map_to_list. done.
Qed.

(** ** The walk, further *)

Lemma classifyEdge_unsafe okFuncs m edge site args arg :
  callgraph.Site edge = Some site → ssa.Parent site ∉ okFuncs →
  receiverArgs m (ssa.Args site) = Ok args → args !! Param m = Some arg →
  (∀ val, arg ≠ ssa.Const val) →
  classifyEdge okFuncs m edge = UnsafeSite site.
Proof.
  intros Hsite Hparent Hargs Harg Hval.
  pose proof (classifyEdge_cases okFuncs m edge) as H.
  destruct (classifyEdge okFuncs m edge) as [|s|text|p].
  - destruct H as (s & Hs & ?). rewrite Hsite in Hs. by simplify_eq.
  - destruct H as (Hs & _). rewrite Hsite in Hs. by simplify_eq.
  - destruct H as (s & a & c & Hs & _ & Ha & Hc & _).
    rewrite Hsite in Hs. injection Hs as <-.
    rewrite Hargs in Ha. injection Ha as <-.
    rewrite Harg in Hc. injection Hc as ->. destruct (Hval (Some c) eq_refl).
  - destruct H as [[Hs _]|(s & Hs & _ & H)]; rewrite Hsite in Hs; [done|].
    injection Hs as <-.
    destruct H as [[Ha _]|(a & Ha & H)]; rewrite Hargs in Ha; [done|].
    injection Ha as <-.
    destruct H as [[Hc _]|[Hc _]]; rewrite Harg in Hc; [done|].
    injection Hc as ->. destruct (Hval None eq_refl).
Qed.

(** X11: after a run that returns, the unsafe sites are exactly the call
    sites of incoming edges of cataloged methods that lie in no cataloged
    function and whose query argument, after the receiver is dropped, is
    not a constant. *)
Theorem bad_sites_exactly
    (DeleteSyntheticNodes : callgraph.Graph → callgraph.Graph)
    (cg : callgraph.Graph) (qms : list QueryMethod)
    (v : Verdict) (g' : callgraph.Graph) (site : ssa.CallInstruction) :
  FindNonConstCalls DeleteSyntheticNodes cg qms = Ok (v, g') →
  site ∈ bad v ↔
  ∃ m edge args arg,
    m ∈ qms ∧ edge ∈ inEdges (DeleteSyntheticNodes cg) (SSA m) ∧
    callgraph.Site edge = Some site ∧
    (∀ m', m' ∈ qms → SSA m' ≠ ssa.Parent site) ∧
    receiverArgs m (ssa.Args site) = Ok args ∧
    args !! Param m = Some arg ∧ (∀ val, arg ≠ ssa.Const val).
Proof.
  intros (_ & Hbad & _)%FindNonConstCalls_Ok. rewrite Hbad, list_elem_of_bind.
  split.
  - intros (m & (e & He & Hclass)%list_elem_of_omap & Hm).
    pose proof (classifyEdge_cases (addOkFuncs qms ∅) m e) as Hcases.
    destruct (classifyEdge (addOkFuncs qms ∅) m e); try done.
    simpl in Hclass. simplify_eq.
    destruct Hcases as (Hsite & Hnot & args & arg & Hargs & Harg & Hval).
    exists m, e, args, arg. repeat split; try done.
    intros m' Hm' Heq. apply Hnot, elem_of_okFuncs. by exists m'.
  - intros (m & e & args & arg & Hm & He & Hsite & Hnot & Hargs & Harg & Hval).
    exists m. split; [|done]. apply list_elem_of_omap. exists e. split; [done|].
    rewrite (classifyEdge_unsafe _ _ _ site args arg); try done.
    intros (m' & Hm' & Heq)%elem_of_okFuncs. by apply (Hnot m').
Qed.

(** X12: every constant query that a run returns is a cleaned text:
    cleaning it again gives the same text. *)
Theorem queries_are_clean
    (DeleteSyntheticNodes : callgraph.Graph → callgraph.Graph)
    (cg : callgraph.Graph) (qms : list QueryMethod)
    (v : Verdict) (g' : callgraph.Graph) (q : GoString.t) :
  FindNonConstCalls DeleteSyntheticNodes cg qms = Ok (v, g') →
  q ∈ queries v → clean q = q.
Proof.
  intros (_ & _ & Hq & _)%FindNonConstCalls_Ok Hin. rewrite Hq in Hin.
  apply list_elem_of_bind in Hin as (m & (e & _ & Hclass)%list_elem_of_omap & _).
  pose proof (classifyEdge_cases (addOkFuncs qms ∅) m e) as Hcases.
  destruct (classifyEdge (addOkFuncs qms ∅) m e); try done.
  simpl in Hclass. simplify_eq.
  destruct Hcases as (_ & _ & c & _ & _ & _ & _ & ->). apply clean_fixed.
Qed.

Lemma CreateNode_lookup g fn f n :
  callgraph.Nodes (callgraph.CreateNode g fn).2 !! f = Some n ↔
  callgraph.Nodes g !! f = Some n ∨
  (callgraph.Nodes g !! f = None ∧ f = fn ∧
   n = {| callgraph.Func := fn; callgraph.ID := size (callgraph.Nodes g);
          callgraph.In := []; callgraph.Out := [] |}).
Proof.
  unfold callgraph.CreateNode.
  destruct (callgraph.Nodes g !! fn) eqn:E; simpl.
  - split; [by left|]. intros [?|(? & -> & _)]; [done|congruence].
  - destruct (decide (fn = f)) as [->|Hne].
    + rewrite lookup_insert_eq, E. split.
      * intros [= <-]. by right.
      * intros [?|(_ & _ & ->)]; done.
    + rewrite lookup_insert_ne by done. split; [by left|].
      intros [?|(_ & -> & _)]; done.
Qed.

Lemma CreateNode_Root g fn :
  callgraph.Root (callgraph.CreateNode g fn).2 = callgraph.Root g.
Proof. unfold callgraph.CreateNode. by destruct (callgraph.Nodes g !! fn). Qed.

Lemma createNodes_Root qms : ∀ g,
  callgraph.Root (createNodes g qms) = callgraph.Root g.
Proof.
  induction qms as [|m rest IH]; intros g; simpl; [done|].
  by rewrite IH, CreateNode_Root.
Qed.

Lemma createNodes_old qms : ∀ g f n,
  callgraph.Nodes g !! f = Some n → callgraph.Nodes (createNodes g qms) !! f = Some n.
Proof.
  induction qms as [|m rest IH]; intros g f n Hf; simpl; [done|].
  apply IH, CreateNode_lookup. by left.
Qed.

Lemma createNodes_new qms : ∀ g f n,
  callgraph.Nodes (createNodes g qms) !! f = Some n →
  callgraph.Nodes g !! f = None →
  (∃ m, m ∈ qms ∧ SSA m = f) ∧ callgraph.Func n = f ∧
  callgraph.In n = [] ∧ callgraph.Out n = [].
Proof.
  induction qms as [|m rest IH]; intros g f n Hf Hnone; simpl in Hf.
  { congruence. }
  destruct (callgraph.Nodes (callgraph.CreateNode g (SSA m)).2 !! f) as [n'|] eqn:E.
  - pose proof (createNodes_old rest _ _ _ E) as Hn'. simplify_eq.
    apply CreateNode_lookup in E as [?|(_ & -> & ->)]; [congruence|].
    split; [|done]. exists m. split; [by left|done].
  - destruct (IH _ _ _ Hf E) as ((m' & Hm' & Heq) & ?). split; [|done].
    exists m'. split; [by right|done].
Qed.

(** X13: a run that returns leaves the graph of [DeleteSyntheticNodes] with
    its root and every node as they were, gives every cataloged method a
    node, and adds only nodes of cataloged methods that had none, each
    without edges. *)
Theorem graph_after_run
    (DeleteSyntheticNodes : callgraph.Graph → callgraph.Graph)
    (cg : callgraph.Graph) (qms : list QueryMethod)
    (v : Verdict) (g' : callgraph.Graph) :
  FindNonConstCalls DeleteSyntheticNodes cg qms = Ok (v, g') →
  callgraph.Root g' = callgraph.Root (DeleteSyntheticNodes cg) ∧
  (∀ f n, callgraph.Nodes (DeleteSyntheticNodes cg) !! f = Some n →
          callgraph.Nodes g' !! f = Some n) ∧
  (∀ m, m ∈ qms → is_Some (callgraph.Nodes g' !! SSA m)) ∧
  (∀ f n, callgraph.Nodes g' !! f = Some n →
          callgraph.Nodes (DeleteSyntheticNodes cg) !! f = None →
          (∃ m, m ∈ qms ∧ SSA m = f) ∧ callgraph.Func n = f ∧
          callgraph.In n = [] ∧ callgraph.Out n = []).
Proof.
  intros (_ & _ & _ & ->)%FindNonConstCalls_Ok. split; [apply createNodes_Root|].
  split; [apply createNodes_old|]. split; [intros m; apply createNodes_present|].
  apply createNodes_new.
Qed.


Lemma classifyEdge_forwarded okFuncs m edge site :
  callgraph.Site edge = Some site → ssa.Parent site ∈ okFuncs →
  classifyEdge okFuncs m edge = Forwarded.
Proof.
  intros Hsite Hin. unfold classifyEdge. rewrite Hsite.
  by rewrite decide_True by done.
Qed.

Lemma omap_all_None {A B} (f : A → option B) (l : list A) :
  (∀ x, x ∈ l → f x = None) → omap f l = [].
Proof.
  induction l as [|x rest IH]; intros Hall; [done|].
  cbn [omap list_omap]. rewrite (Hall x) by (by left).
  apply IH. intros y Hy. apply Hall. by right.
Qed.

Lemma bind_all_nil {A B} (f : A → list B) (l : list A) :
  (∀ x, x ∈ l → f x = []) → l ≫= f = [].
Proof.
  induction l as [|x rest IH]; intros Hall; [done|].
  rewrite bind_cons, (Hall x) by (by left).
  apply IH. intros y Hy. apply Hall. by right.
Qed.

(** X15: when the cataloged methods are called only from cataloged
    functions (or have no node or no incoming edge at all), the run
    returns with no unsafe site and no query, whatever those calls pass. *)
Theorem only_forwarded_calls
    (DeleteSyntheticNodes : callgraph.Graph → callgraph.Graph)
    (cg : callgraph.Graph) (qms : list QueryMethod) :
  (∀ m edge, m ∈ qms → edge ∈ inEdges (DeleteSyntheticNodes cg) (SSA m) →
     ∃ site m', callgraph.Site edge = Some site ∧
                m' ∈ qms ∧ SSA m' = ssa.Parent site) →
  FindNonConstCalls DeleteSyntheticNodes cg qms
  = Ok ({| bad := []; queries := [] |},
        createNodes (DeleteSyntheticNodes cg) qms).
Proof.
  intros Hall.
  assert (Hfw : ∀ m e, m ∈ qms → e ∈ inEdges (DeleteSyntheticNodes cg) (SSA m) →
                       classifyEdge (addOkFuncs qms ∅) m e = Forwarded).
  { intros m e Hm He. destruct (Hall m e Hm He) as (site & m' & Hsite & Hm' & Heq).
    apply (classifyEdge_forwarded _ _ _ site); [done|].
    apply elem_of_okFuncs. by exists m'. }
  apply FindNonConstCalls_Ok. split; [|split; [|split; [|done]]]; simpl.
  - intros m e Hm He. apply wellFormedEdge_not_fatal. by rewrite Hfw.
  - symmetry. apply bind_all_nil. intros m Hm. apply omap_all_None.
    intros e He. by rewrite Hfw.
  - symmetry. apply bind_all_nil. intros m Hm. apply omap_all_None.
    intros e He. by rewrite Hfw.
Qed.

(** ** The command *)

Lemma shownSinks_no_verdict env fl p info l :
  l ∈ shownSinks env fl p info → isVerdictLine l = false.
Proof.
  unfold shownSinks, cli.sinkLines. destruct (cli.verbose fl).
  - intros [->|[(m & -> & _)%list_elem_of_fmap|Hl]%elem_of_app]%elem_of_cons;
      [done..|]. by apply list_elem_of_singleton in Hl as ->.
  - by intros ?%elem_of_nil.
Qed.

Lemma main_analysed env fl pkgs p info mains cg v g' :
  analysed env pkgs p info mains cg v g' →
  cli.main env fl pkgs
  = (shownSinks env fl p info ++ (cli.report fl v).1, (cli.report fl v).2).
Proof.
  intros (Hpkgs & Hload & Hsql & Hmains & Hne & Hcg & Hrun).
  unfold cli.main, shownSinks.
  rewrite decide_False by (by destruct pkgs).
  rewrite Hload, Hsql, Hmains.
  rewrite decide_False by (by destruct mains).
  rewrite Hcg, Hrun. by destruct (cli.report fl v).
Qed.

(** Either every step up to the verdict succeeds, or [main] ends early
    with status 2 or in a panic, without a line about a verdict. *)
Lemma main_cases env fl pkgs :
  (∃ p info mains cg v g', analysed env pkgs p info mains cg v g') ∨
  (((cli.main env fl pkgs).2 = cli.Exit 2 ∨
    ∃ e, (cli.main env fl pkgs).2 = cli.Panicked e) ∧
   ∀ l, l ∈ (cli.main env fl pkgs).1 → isVerdictLine l = false).
Proof.
  unfold cli.main.
  destruct (decide (length pkgs = 0)) as [Hp|Hp].
  { right. split; [by left|]. by intros l ->%list_elem_of_singleton. }
  destruct (cli.Load env ("database/sql" :: pkgs)) as [p|err] eqn:Hload.
  2: { right. split; [by left|]. by intros l ->%list_elem_of_singleton. }
  destruct (cli.PackageAt env p "database/sql") as [info|] eqn:Hsql.
  2: { right. split; [right; by eexists|]. by intros l ?%elem_of_nil. }
  fold (shownSinks env fl p info).
  destruct (FindMains p (cli.CreateProgram env p)) as [mains|e] eqn:Hmains.
  2: { right. split; [right; by eexists|]. apply shownSinks_no_verdict. }
  destruct (decide (length mains = 0)) as [Hm|Hm].
  { right. split; [by left|].
    intros l [?%shownSinks_no_verdict| ->%list_elem_of_singleton]%elem_of_app; done. }
  destruct (cli.Analyze env mains) as [cg|err] eqn:Hcg.
  2: { right. split; [by left|].
       intros l [?%shownSinks_no_verdict| ->%list_elem_of_singleton]%elem_of_app; done. }
  destruct (FindNonConstCalls _ cg _) as [[v g']|e] eqn:Hrun.
  2: { right. split; [right; by eexists|]. apply shownSinks_no_verdict. }
  left. exists p, info, mains, cg, v, g'. repeat split; try done.
  - by intros ->.
  - by intros ->.
Qed.

Lemma report_status fl v :
  (cli.report fl v).2
  = if cli.print fl then cli.Return
    else if decide (bad v = []) then cli.Return else cli.Exit 1.
Proof.
  unfold cli.report. destruct (cli.print fl); [done|].
  destruct (bad v); simpl; done.
Qed.

(** X16: how [main] ends (by returning, by [os.Exit] with its code, or in
    a panic) depends on the flags through [-p] alone: [-v] and [-q] change
    what is written, never the way it ends. *)
Theorem main_status_flags (env : cli.Env) (fl fl' : cli.Flags)
    (pkgs : list string) :
  cli.print fl = cli.print fl' →
  (cli.main env fl pkgs).2 = (cli.main env fl' pkgs).2.
Proof.
  intros Hprint. unfold cli.main.
  destruct (decide (length pkgs = 0)); [done|].
  destruct (cli.Load env ("database/sql" :: pkgs)) as [p|err]; [|done].
  destruct (cli.PackageAt env p "database/sql") as [info|]; [|done].
  cbv zeta.
  destruct (FindMains p (cli.CreateProgram env p)) as [mains|e]; [|done].
  destruct (decide (length mains = 0)); [done|].
  destruct (cli.Analyze env mains) as [cg|err]; [|done].
  destruct (FindNonConstCalls _ cg _) as [[v g']|e]; [|done].
  pose proof (report_status fl v) as H. pose proof (report_status fl' v) as H'.
  destruct (cli.report fl v), (cli.report fl' v). simpl in *.
  by rewrite H, H', Hprint.
Qed.

Lemma filter_all {A} (P : A → Prop) `{∀ x, Decision (P x)} (l : list A) :
  (∀ x, x ∈ l → P x) → filter P l = l.
Proof.
  induction l as [|x rest IH]; intros Hall; [done|].
  rewrite filter_cons, decide_True by (apply Hall; by left).
  f_equal. apply IH. intros y Hy. apply Hall. by right.
Qed.

Lemma isVerdictLine_isSafe l : isVerdictLine l = false → cli.isSafe l = false.
Proof. by destruct l. Qed.

Lemma report_quiet fl v :
  (cli.report (withQuiet true fl) v).1
  = filter (λ l, cli.isSafe l = false) (cli.report (withQuiet false fl) v).1.
Proof.
  unfold cli.report. simpl. destruct (cli.print fl); simpl.
  - symmetry. apply filter_all. by intros l (q & -> & _)%list_elem_of_fmap.
  - destruct (decide (length (bad v) = 0)); simpl; [done|].
    symmetry. apply (filter_all (λ l, cli.isSafe l = false)).
    intros l [->|[(ci & -> & _)%list_elem_of_fmap|Hl]%elem_of_app]%elem_of_cons;
      [done..|].
    set_unfold in Hl. by destruct Hl as [->|[->|[->|[]]]].
Qed.

(** X17: [-q] takes the line that tells of a safe program out of what is
    written and changes nothing else. *)
Theorem main_quiet (env : cli.Env) (fl : cli.Flags) (pkgs : list string) :
  (cli.main env (withQuiet true fl) pkgs).1
  = filter (λ l, cli.isSafe l = false) (cli.main env (withQuiet false fl) pkgs).1.
Proof.
  unfold cli.main.
  destruct (decide (length pkgs = 0)); [done|].
  destruct (cli.Load env ("database/sql" :: pkgs)) as [p|err]; [|done].
  destruct (cli.PackageAt env p "database/sql") as [info|]; [|done].
  cbv zeta. change (cli.verbose (withQuiet true fl)) with (cli.verbose fl).
  change (cli.verbose (withQuiet false fl)) with (cli.verbose fl).
  fold (shownSinks env fl p info).
  assert (Hshown : filter (λ l, cli.isSafe l = false) (shownSinks env fl p info)
                   = shownSinks env fl p info).
  { apply (filter_all (λ l, cli.isSafe l = false)).
    intros l Hl. by apply isVerdictLine_isSafe, (shownSinks_no_verdict env fl p info). }
  destruct (FindMains p (cli.CreateProgram env p)) as [mains|e]; [|done].
  destruct (decide (length mains = 0)).
  { simpl. by rewrite filter_app, Hshown. }
  destruct (cli.Analyze env mains) as [cg|err].
  2: { simpl. by rewrite filter_app, Hshown. }
  destruct (FindNonConstCalls _ cg _) as [[v g']|e]; [|done].
  pose proof (report_quiet fl v) as Hq.
  destruct (cli.report (withQuiet true fl) v), (cli.report (withQuiet false fl) v).
  simpl in *. by rewrite filter_app, Hshown, Hq.
Qed.

Lemma report_print fl v :
  cli.print fl = true → cli.report fl v = (cli.Query <$> queries v, cli.Return).
Proof. intros H. unfold cli.report. by rewrite H. Qed.

Lemma report_findings fl v :
  cli.print fl = false → bad v ≠ [] →
  cli.report fl v
  = (cli.Found (length (bad v))
       :: ((λ ci, cli.UnsafeAt (ssa.Pos ci)) <$> bad v)
       ++ [cli.AdviceConstants; cli.AdviceParameterized; cli.AdviceStrings],
     cli.Exit 1).
Proof.
  intros H Hbad. unfold cli.report. rewrite H.
  rewrite decide_False; [done|]. by destruct (bad v).
Qed.

Lemma report_safe fl v :
  cli.print fl = false → bad v = [] →
  cli.report fl v = (if cli.quiet fl then [] else [cli.Safe], cli.Return).
Proof. intros H Hbad. unfold cli.report. by rewrite H, Hbad. Qed.

(** X18: with [-p] the command never calls [os.Exit(1)] and writes no
    line of the report of unsafe sites; when every step up to the verdict
    succeeds it writes the constant queries in their order, one line each,
    after the lines of [-v], and returns, whatever the unsafe sites are. *)
Theorem main_print (env : cli.Env) (fl : cli.Flags) (pkgs : list string) :
  cli.print fl = true →
  (cli.main env fl pkgs).2 ≠ cli.Exit 1 ∧
  (∀ l, l ∈ (cli.main env fl pkgs).1 → cli.isFinding l = false) ∧
  (∀ p info mains cg v g',
     analysed env pkgs p info mains cg v g' →
     cli.main env fl pkgs
     = (shownSinks env fl p info ++ (cli.Query <$> queries v), cli.Return)).
Proof.
  intros Hprint.
  assert (Hrun : ∀ p info mains cg v g',
    analysed env pkgs p info mains cg v g' →
    cli.main env fl pkgs
    = (shownSinks env fl p info ++ (cli.Query <$> queries v), cli.Return)).
  { intros p info mains cg v g' Ha.
    by rewrite (main_analysed _ _ _ _ _ _ _ _ _ Ha), report_print. }
  split; [|split; [|exact Hrun]].
  - destruct (main_cases env fl pkgs)
      as [(p & info & mains & cg & v & g' & Ha)|[[->|[e ->]] _]]; [|done..].
    by rewrite (Hrun _ _ _ _ _ _ Ha).
  - destruct (main_cases env fl pkgs)
      as [(p & info & mains & cg & v & g' & Ha)|[_ Hlines]].
    + rewrite (Hrun _ _ _ _ _ _ Ha). simpl.
      intros l [Hl%shownSinks_no_verdict|(q & -> & _)%list_elem_of_fmap]%elem_of_app;
        [by destruct l|done].
    + intros l Hl%Hlines. by destruct l.
Qed.

(** X19: the command calls [os.Exit(1)] exactly when [-p] is not set,
    every step up to the verdict succeeds and the verdict has an unsafe
    site; it then writes, after the lines of [-v], the number of unsafe
    sites, one line for each site in the order of the verdict, and the
    advice. *)
Theorem main_exit_1 (env : cli.Env) (fl : cli.Flags) (pkgs : list string) :
  (cli.main env fl pkgs).2 = cli.Exit 1 ↔
  cli.print fl = false ∧
  ∃ p info mains cg v g',
    analysed env pkgs p info mains cg v g' ∧ bad v ≠ [] ∧
    (cli.main env fl pkgs).1
    = shownSinks env fl p info
      ++ cli.Found (length (bad v))
         :: ((λ ci, cli.UnsafeAt (ssa.Pos ci)) <$> bad v)
         ++ [cli.AdviceConstants; cli.AdviceParameterized; cli.AdviceStrings].
Proof.
  split.
  - destruct (main_cases env fl pkgs)
      as [(p & info & mains & cg & v & g' & Ha)|[[->|[e ->]] _]]; [|done..].
    rewrite (main_analysed _ _ _ _ _ _ _ _ _ Ha). simpl. rewrite report_status.
    destruct (cli.print fl) eqn:Hprint; [done|].
    destruct (decide (bad v = [])) as [|Hbad]; [done|]. intros _.
    split; [done|]. exists p, info, mains, cg, v, g'.
    by rewrite report_findings.
  - intros (Hprint & p & info & mains & cg & v & g' & Ha & Hbad & _).
    by rewrite (main_analysed _ _ _ _ _ _ _ _ _ Ha), report_findings.
Qed.

Lemma bad_provenance DeleteSyntheticNodes cg qms v g' site :
  FindNonConstCalls DeleteSyntheticNodes cg qms = Ok (v, g') →
  site ∈ bad v →
  ∃ m edge args arg,
    m ∈ qms ∧ edge ∈ inEdges (DeleteSyntheticNodes cg) (SSA m) ∧
    callgraph.Site edge = Some site ∧
    (∀ m', m' ∈ qms → SSA m' ≠ ssa.Parent site) ∧
    receiverArgs m (ssa.Args site) = Ok args ∧
    args !! Param m = Some arg ∧ (∀ val, arg ≠ ssa.Const val).
Proof.
  intros (_ & Hbad & _)%FindNonConstCalls_Ok. rewrite Hbad, list_elem_of_bind.
  intros (m & (e & He & Hclass)%list_elem_of_omap & Hm).
  pose proof (classifyEdge_cases (addOkFuncs qms ∅) m e) as Hcases.
  destruct (classifyEdge (addOkFuncs qms ∅) m e); try done.
  simpl in Hclass. simplify_eq.
  destruct Hcases as (Hsite & Hnot & args & arg & Hargs & Harg & Hval).
  exists m, e, args, arg. repeat split; try done.
  intros m' Hm' Heq. apply Hnot, elem_of_okFuncs. by exists m'.
Qed.

(** X20: when the command calls [os.Exit(1)], the program that was loaded
    has a call of a cataloged method, outside the cataloged functions,
    whose query argument is not a constant, and the position of that call
    is among the lines written. *)
Theorem main_exit_1_sound (env : cli.Env) (fl : cli.Flags) (pkgs : list string) :
  (cli.main env fl pkgs).2 = cli.Exit 1 →
  ∃ p info mains cg v g' m edge site args arg,
    analysed env pkgs p info mains cg v g' ∧
    m ∈ FindQueryMethods (loader.Pkg info) (cli.CreateProgram env p) ∧
    edge ∈ inEdges (cli.DeleteSyntheticNodes env cg) (SSA m) ∧
    callgraph.Site edge = Some site ∧
    (∀ m', m' ∈ FindQueryMethods (loader.Pkg info) (cli.CreateProgram env p) →
           SSA m' ≠ ssa.Parent site) ∧
    receiverArgs m (ssa.Args site) = Ok args ∧
    args !! Param m = Some arg ∧ (∀ val, arg ≠ ssa.Const val) ∧
    cli.UnsafeAt (ssa.Pos site) ∈ (cli.main env fl pkgs).1.
Proof.
  destruct (main_cases env fl pkgs)
    as [(p & info & mains & cg & v & g' & Ha)|[[->|[e ->]] _]]; [|done..].
  rewrite (main_analysed _ _ _ _ _ _ _ _ _ Ha). simpl. rewrite report_status.
  destruct (cli.print fl) eqn:Hprint; [done|].
  destruct (decide (bad v = [])) as [|Hbad]; [done|]. intros _.
  destruct (bad v) as [|site rest] eqn:Ebad; [done|].
  assert (Hin : site ∈ bad v) by (rewrite Ebad; by left).
  pose proof Ha as (_ & _ & _ & _ & _ & _ & Hrun).
  destruct (bad_provenance _ _ _ _ _ site Hrun Hin)
    as (m & edge & args & arg & Hm & He & Hsite & Hnot & Hargs & Harg & Hval).
  exists p, info, mains, cg, v, g', m, edge, site, args, arg.
  repeat split; try done; try apply Ha.
  rewrite report_findings by (done || by rewrite Ebad).
  simpl. apply elem_of_app. right. right. apply elem_of_app. left.
  apply list_elem_of_fmap. by exists site.
Qed.

Lemma no_bad_all_constant DeleteSyntheticNodes cg qms v g' :
  FindNonConstCalls DeleteSyntheticNodes cg qms = Ok (v, g') →
  bad v = [] →
  ∀ m edge, m ∈ qms → edge ∈ inEdges (DeleteSyntheticNodes cg) (SSA m) →
    ∃ site, callgraph.Site edge = Some site ∧
      ((∃ m', m' ∈ qms ∧ SSA m' = ssa.Parent site) ∨
       ∃ args c, receiverArgs m (ssa.Args site) = Ok args ∧
                 args !! Param m = Some (ssa.Const (Some c))).
Proof.
  intros (Hwf & Hbad & _)%FindNonConstCalls_Ok Hnil m e Hm He.
  specialize (Hwf m e Hm He). apply wellFormedEdge_not_fatal in Hwf.
  pose proof (classifyEdge_cases (addOkFuncs qms ∅) m e) as Hcases.
  destruct (classifyEdge (addOkFuncs qms ∅) m e) as [|s|text|p] eqn:E; try done.
  - destruct Hcases as (site & Hsite & Hin%elem_of_okFuncs). exists site. auto.
  - assert (s ∈ bad v) as Hs; [|by rewrite Hnil in Hs; apply elem_of_nil in Hs].
    rewrite Hbad. apply list_elem_of_bind. exists m. split; [|done].
    apply list_elem_of_omap. exists e. split; [done|]. by rewrite E.
  - destruct Hcases as (site & args & c & Hsite & _ & Hargs & Harg & _).
    exists site. split; [done|]. right. by exists args, c.
Qed.

(** X21: the line that tells of a safe program is written only when [-p]
    and [-q] are not set, every step up to the verdict succeeds, and every
    incoming edge of a cataloged method has a call site that lies in a
    cataloged function or passes a constant with a value as the query. *)
Theorem main_safe_sound (env : cli.Env) (fl : cli.Flags) (pkgs : list string) :
  cli.Safe ∈ (cli.main env fl pkgs).1 →
  cli.print fl = false ∧ cli.quiet fl = false ∧
  (cli.main env fl pkgs).2 = cli.Return ∧
  ∃ p info mains cg v g',
    analysed env pkgs p info mains cg v g' ∧
    ∀ m edge,
      m ∈ FindQueryMethods (loader.Pkg info) (cli.CreateProgram env p) →
      edge ∈ inEdges (cli.DeleteSyntheticNodes env cg) (SSA m) →
      ∃ site, callgraph.Site edge = Some site ∧
        ((∃ m', m' ∈ FindQueryMethods (loader.Pkg info) (cli.CreateProgram env p)
                ∧ SSA m' = ssa.Parent site) ∨
         ∃ args c, receiverArgs m (ssa.Args site) = Ok args ∧
                   args !! Param m = Some (ssa.Const (Some c))).
Proof.
  destruct (main_cases env fl pkgs)
    as [(p & info & mains & cg & v & g' & Ha)|[_ Hlines]].
  2: { by intros ?%Hlines. }
  rewrite (main_analysed _ _ _ _ _ _ _ _ _ Ha). simpl.
  intros [?%shownSinks_no_verdict|Hsafe]%elem_of_app; [done|].
  destruct (cli.print fl) eqn:Hprint.
  { rewrite report_print in Hsafe by done. simpl in Hsafe.
    by apply list_elem_of_fmap in Hsafe as (q & ? & _). }
  destruct (decide (bad v = [])) as [Hnil|Hbad].
  - rewrite report_safe in Hsafe |- * by done. simpl in *.
    destruct (cli.quiet fl); [by apply elem_of_nil in Hsafe|].
    repeat split. exists p, info, mains, cg, v, g'. split; [done|].
    apply (no_bad_all_constant _ _ _ v g'); [apply Ha|done].
  - rewrite report_findings in Hsafe by done. simpl in Hsafe.
    apply elem_of_cons in Hsafe as [?|Hsafe]; [done|].
    apply elem_of_app in Hsafe as [(ci & ? & _)%list_elem_of_fmap|Hsafe]; [done|].
    set_unfold in Hsafe. by destruct Hsafe as [?|[?|[?|[]]]].
Qed.

(** X22: the command calls [os.Exit(2)] exactly when no package is named,
    when loading fails, when no requested package has a function [main],
    or when the pointer analysis fails; a verdict never leads to it. *)
Theorem main_exit_2 (env : cli.Env) (fl : cli.Flags) (pkgs : list string) :
  (cli.main env fl pkgs).2 = cli.Exit 2 ↔
  pkgs = [] ∨
  (∃ err, cli.Load env ("database/sql" :: pkgs) = inr err) ∨
  ∃ p info,
    cli.Load env ("database/sql" :: pkgs) = inl p ∧
    cli.PackageAt env p "database/sql" = Some info ∧
    (FindMains p (cli.CreateProgram env p) = Ok [] ∨
     ∃ mains err, FindMains p (cli.CreateProgram env p) = Ok mains ∧
                  cli.Analyze env mains = inr err).
Proof.
  unfold cli.main.
  destruct (decide (length pkgs = 0)) as [Hp|Hp].
  { split; [|done]. intros _. left. by destruct pkgs. }
  assert (pkgs ≠ []) as Hne by (by intros ->).
  destruct (cli.Load env ("database/sql" :: pkgs)) as [p|err] eqn:Hload.
  2: { split; [|done]. intros _. right. left. by exists err. }
  destruct (cli.PackageAt env p "database/sql") as [info|] eqn:Hsql.
  2: { split; [done|].
       intros [?|[[? ?]|(? & ? & ? & ? & _)]]; [done..|]. simplify_eq; try congruence. }
  cbv zeta.
  destruct (FindMains p (cli.CreateProgram env p)) as [mains|e] eqn:Hmains.
  2: { split; [done|].
       intros [?|[[? ?]|(? & ? & ? & _ & [?|(? & ? & ? & _)])]]; [done..| |];
         simplify_eq; try congruence. }
  destruct (decide (length mains = 0)) as [Hm|Hm].
  { split; [|done]. intros _. right. right. exists p, info.
    split; [done|]. split; [done|]. left. rewrite Hmains. by destruct mains. }
  destruct (cli.Analyze env mains) as [cg|err] eqn:Hcg.
  { assert (Hno : ¬ (pkgs = [] ∨
        (∃ err, @inl loader.Program string p = inr err) ∨
        ∃ p0 info0, @inl loader.Program string p = inl p0 ∧
          cli.PackageAt env p0 "database/sql" = Some info0 ∧
          (FindMains p0 (cli.CreateProgram env p0) = Ok [] ∨
           ∃ mains0 err, FindMains p0 (cli.CreateProgram env p0) = Ok mains0 ∧
                         cli.Analyze env mains0 = inr err))).
    { intros [?|[[? ?]|(? & ? & ? & _ & [?|(? & ? & ? & ?)])]]; [done..| |];
        simplify_eq.
      - rewrite Hmains in *. by simplify_eq.
      - rewrite Hmains in *. simplify_eq. congruence. }
    destruct (FindNonConstCalls _ cg _) as [[v g']|e]; [|by split].
    pose proof (report_status fl v) as Hst.
    destruct (cli.report fl v) as [lines st]. simpl in *. subst st.
    split; [|done]. by repeat case_match. }
  split; [|done]. intros _. right. right. exists p, info.
  split; [done|]. split; [done|]. right. by exists mains, err.
Qed.

(** ** The scope of any package and the removal of the synthetic nodes *)

(** X23: [FindQueryMethods] does not return exactly when the scope has an
    exported type name whose type is not a named type: the assertion of
    line 127 fails there. *)
Theorem FindQueryMethods_stops_at_alias (scope : types.AnyScope) (prog : ssa.Program) :
  anyscope.FindQueryMethods scope prog = None ↔
  ∃ o, o ∈ scope ∧ isExportedAlias o.
Proof.
  unfold anyscope.FindQueryMethods. split.
  - intros Hnone. destruct (decide (Exists isExportedAlias scope)) as [Hex|Hno].
    { by apply Exists_exists in Hex. }
    rewrite anyscope_scanScope_Some in Hnone; [done|].
    intros o Ho Halias. apply Hno, Exists_exists. by exists o.
  - apply anyscope_scanScope_None.
Qed.

Lemma anyscope_scanScope_named prog (objs : types.Scope) : ∀ methods,
  anyscope.scanScope prog (anyObject <$> objs) methods
  = Some (scanScope prog objs methods).
Proof.
  induction objs as [|o rest IH]; intros methods; [done|].
  rewrite fmap_cons. simpl.
  destruct (types.Exported o); simpl; [|apply IH].
  destruct (types.Kind o); apply IH.
Qed.

(** X24: on a scope whose type names all denote named types the scan of a
    scope of any kind returns, and returns the catalog of
    [FindQueryMethods]. *)
Theorem FindQueryMethods_on_named_scope (sql : types.Package) (prog : ssa.Program) :
  anyscope.FindQueryMethods (anyObject <$> types.PackageScope sql) prog
  = Some (FindQueryMethods sql prog).
Proof. apply anyscope_scanScope_named. Qed.

(** X25: the removal of an edge from a slice takes out one occurrence of
    it and keeps every other element, in an order that may differ; it
    fails exactly when the slice does not hold the edge. *)
Theorem swapDelete_spec (e : callgraph.Edge) (l : list callgraph.Edge) :
  match synthetic.swapDelete e l with
  | Some l' => l ≡ₚ e :: l' ∧ length l = S (length l')
  | None => e ∉ l
  end.
Proof.
  induction l as [|x rest IH]; simpl; [by apply not_elem_of_nil|].
  destruct (decide (x = e)) as [->|Hne].
  - destruct (last rest) as [y|] eqn:Hlast.
    + assert (rest = removelast rest ++ [y]) as Hrest.
      { destruct (exists_last (l := rest)) as (l0 & z & ->).
        { intros ->. done. }
        rewrite last_snoc in Hlast. simplify_eq.
        by rewrite removelast_last. }
      split.
      * constructor. rewrite Hrest at 1. by rewrite Permutation_app_comm.
      * simpl. f_equal. rewrite Hrest at 1. rewrite length_app. simpl. lia.
    + apply last_None in Hlast as ->. done.
  - destruct (synthetic.swapDelete e rest) as [l'|]; simpl.
    + destruct IH as [IH Hlen]. split; [|by rewrite Hlen].
      rewrite IH. apply Permutation_swap.
    + intros [?|?]%elem_of_cons; [by subst|done].
Qed.

Lemma visit_kept k root order st :
  (∀ fn, fn ∈ order →
     root = Some fn ∨ synthetic.isInit k fn = true
     ∨ synthetic.Synthetic k fn = false) →
  synthetic.visit k root order st = Some st.2.
Proof.
  induction order as [|fn rest IH]; intros Hkept; [done|]. simpl.
  assert (synthetic.visit k root rest st = Some st.2) as Hrest.
  { apply IH. intros fn' Hfn'. apply Hkept. by right. }
  destruct (decide (root = Some fn)); [done|].
  destruct (Hkept fn) as [?|[->| ->]]; [by left|done|done|].
  by rewrite orb_true_r.
Qed.

(** X26: on a graph in which every node is the root, an initializer or a
    function with syntax, the removal of the synthetic nodes returns the
    graph as it is, in whatever order it ranges over the nodes. *)
Theorem DeleteSyntheticNodesIn_kept
    (k : synthetic.Kinds) (order : list ssa.Function) (g : callgraph.Graph) :
  (∀ fn, fn ∈ order → kept k g fn) →
  synthetic.DeleteSyntheticNodesIn k order g = Some g.
Proof.
  intros Hkept. unfold synthetic.DeleteSyntheticNodesIn.
  rewrite visit_kept by exact Hkept. simpl. by destruct g.
Qed.

(** ** The further properties at work on the small program *)

Lemma Example_clean_select :
  clean selectQuoted = GoString.of_string "SELECT * FROM t".
Proof. reflexivity. Defined.

Lemma clean_class_bytes_are_spaces_witness :
  x20 ∈ clean selectQuoted ∧ x20 = x20.
Proof.
  assert (Hin : x20 ∈ clean selectQuoted).
  { rewrite Example_clean_select. vm_compute.
    do 6 apply list_elem_of_further. apply list_elem_of_here. }
  split; [exact Hin|].
  apply (clean_class_bytes_are_spaces selectQuoted x20 Hin). reflexivity.
Defined.

Lemma clean_no_run_witness :
  GoString.isClassByte x20 && GoString.isClassByte "*" = false ∧
  GoString.isEscape x20 "*" = false.
Proof.
  apply (clean_no_run selectQuoted (GoString.of_string "SELECT")
           (GoString.of_string " FROM t") x20 "*").
  reflexivity.
Defined.

Lemma clean_trimmed_witness :
  GoString.isSpace1 "S" = false ∧ GoString.isSpace1 "t" = false.
Proof.
  destruct (clean_trimmed selectQuoted) as (Hfirst & Hlast & _). split.
  - apply (Hfirst "S"%byte (GoString.of_string "ELECT * FROM t")). reflexivity.
  - apply (Hlast (GoString.of_string "SELECT * FROM ") "t"%byte). reflexivity.
Defined.

Lemma clean_quoted_witness :
  clean (x22 :: GoString.of_string "SELECT * FROM t" ++ [x22])
  = GoString.of_string "SELECT * FROM t".
Proof. apply clean_quoted. reflexivity. Defined.

Lemma clean_blank_witness : clean [x22; x20; x0a; x22] = [].
Proof.
  apply clean_blank. repeat (apply Forall_cons; split; [reflexivity|]).
  apply Forall_nil_2.
Defined.

Lemma FuncHasQuery_first_witness :
  FuncHasQuery (types.FuncType Example.Query) = (0, true) ∧
  FuncHasQuery (types.FuncType Example.Raw) = (0, false).
Proof.
  split.
  - apply (FuncHasQuery_first (types.FuncType Example.Query) 0). split.
    + by exists Example.queryVar.
    + intros j w Hj. lia.
  - apply (FuncHasQuery_first (types.FuncType Example.Raw) 0). split; [done|].
    intros w Hw [_ Hty]. simpl in Hw. apply list_elem_of_singleton in Hw as ->.
    discriminate Hty.
Defined.

Lemma FindQueryMethods_app_witness :
  FindQueryMethods Example.sql Example.prog
  = FindQueryMethods ExampleRun.sqlHead Example.prog
    ++ FindQueryMethods ExampleRun.sqlTail Example.prog.
Proof. apply FindQueryMethods_app. reflexivity. Defined.

Lemma FindMains_panics_witness :
  FindMains ExampleRun.loadedMissing Example.prog = Panic NilDereference.
Proof.
  apply (FindMains_panics ExampleRun.loadedMissing Example.prog).
  exists {| loader.Pkg := Example.typesPkg "example.com/gone" "gone" |}.
  split; [by right; left|]. vm_compute. reflexivity.
Defined.

Lemma Example_mains :
  FindMains Example.loaded Example.prog = Ok [Example.cmdPkg; Example.toolPkg].
Proof. vm_compute. reflexivity. Defined.

Lemma FindMains_one_per_unit_witness :
  length [Example.cmdPkg; Example.toolPkg]
  ≤ length (loader.Created ExampleRun.held) + size (loader.Imported ExampleRun.held).
Proof.
  apply (FindMains_one_per_unit ExampleRun.held Example.loaded Example.prog _
           Example_canReturn Example_mains).
Defined.

Lemma bad_sites_exactly_witness : Example.siteConcat ∈ [Example.siteConcat].
Proof.
  apply (bad_sites_exactly Example.keep Example.cg Example.qms _ _
           Example.siteConcat Example_run).
  exists Example.qmQuery, (Example.edgeTo 1 Example.siteConcat),
    (drop 1 (ssa.Args Example.siteConcat)),
    (ssa.BinOp (Example.quoted "SELECT ") (ssa.FuncParam "name")).
  split; [by left|]. split.
  { vm_compute. do 2 apply list_elem_of_further. apply list_elem_of_here. }
  split; [reflexivity|]. split.
  { intros m' Hm'. set_unfold in Hm'. by destruct Hm' as [->|[->|[]]]. }
  split; [reflexivity|]. split; [reflexivity|]. intros val. discriminate.
Defined.

Lemma queries_are_clean_witness :
  clean (GoString.of_string "SELECT 1") = GoString.of_string "SELECT 1".
Proof.
  apply (queries_are_clean Example.keep Example.cg Example.qms _ _ _ Example_run).
  by left.
Defined.

Lemma graph_after_run_witness :
  is_Some (callgraph.Nodes (createNodes Example.cg Example.qms) !! 2).
Proof.
  destruct (graph_after_run Example.keep Example.cg Example.qms _ _ Example_run)
    as (_ & _ & Hnodes & _).
  apply (Hnodes Example.qmQueryRow). by right; left.
Defined.



Lemma only_forwarded_calls_witness :
  FindNonConstCalls Example.keep ExampleRun.cgForwarded Example.qms
  = Ok ({| bad := []; queries := [] |},
        createNodes ExampleRun.cgForwarded Example.qms).
Proof.
  apply (only_forwarded_calls Example.keep ExampleRun.cgForwarded Example.qms).
  intros m edge Hm He. set_unfold in Hm. destruct Hm as [->|[->|[]]].
  - vm_compute in He. set_unfold in He. destruct He as [->|[->|[]]].
    + exists Example.siteForward, Example.qmQueryRow.
      split; [reflexivity|]. split; [by right; left|reflexivity].
    + exists Example.siteForwardConst, Example.qmQueryRow.
      split; [reflexivity|]. split; [by right; left|reflexivity].
  - vm_compute in He. by apply elem_of_nil in He.
Defined.

Lemma Example_analysed :
  analysed ExampleRun.env ExampleRun.pkgs Example.loaded ExampleRun.sqlInfo
    [Example.cmdPkg; Example.toolPkg] Example.cg
    {| bad := [Example.siteConcat];
       queries := [GoString.of_string "SELECT 1"; GoString.of_string "SELECT 1"] |}
    (createNodes Example.cg Example.qms).
Proof.
  split; [discriminate|]. split; [reflexivity|]. split; [reflexivity|].
  split; [exact Example_mains|]. split; [discriminate|]. split; [reflexivity|].
  change (FindNonConstCalls Example.keep Example.cg
            (FindQueryMethods Example.sql Example.prog) = Ok
            ({| bad := [Example.siteConcat];
                queries := [GoString.of_string "SELECT 1";
                            GoString.of_string "SELECT 1"] |},
             createNodes Example.cg Example.qms)).
  rewrite Example_catalog. exact Example_run.
Defined.

Lemma Example_exit_1 :
  (cli.main ExampleRun.env (ExampleRun.flags false false false) ExampleRun.pkgs).2
  = cli.Exit 1.
Proof. vm_compute. reflexivity. Defined.

Lemma main_status_flags_witness :
  (cli.main ExampleRun.env (ExampleRun.flags false true true) ExampleRun.pkgs).2
  = cli.Exit 1.
Proof.
  rewrite <- Example_exit_1.
  apply (main_status_flags ExampleRun.env (ExampleRun.flags false true true)
           (ExampleRun.flags false false false) ExampleRun.pkgs).
  reflexivity.
Defined.

Lemma main_print_witness :
  cli.main ExampleRun.env (ExampleRun.flags true false false) ExampleRun.pkgs
  = ([cli.Query (GoString.of_string "SELECT 1");
      cli.Query (GoString.of_string "SELECT 1")], cli.Return).
Proof.
  destruct (main_print ExampleRun.env (ExampleRun.flags true false false)
              ExampleRun.pkgs eq_refl) as (_ & _ & Hrun).
  exact (Hrun _ _ _ _ _ _ Example_analysed).
Defined.

Lemma main_exit_1_witness :
  (cli.main ExampleRun.env (ExampleRun.flags false true false) ExampleRun.pkgs).2
  = cli.Exit 1.
Proof.
  apply (main_exit_1 ExampleRun.env (ExampleRun.flags false true false)
           ExampleRun.pkgs).
  split; [reflexivity|].
  eexists _, _, _, _, _, _. split; [exact Example_analysed|].
  split; [discriminate|]. vm_compute. reflexivity.
Defined.

Lemma main_exit_1_sound_witness :
  ∃ site,
    cli.UnsafeAt (ssa.Pos site)
    ∈ (cli.main ExampleRun.env (ExampleRun.flags false false false)
         ExampleRun.pkgs).1.
Proof.
  destruct (main_exit_1_sound ExampleRun.env (ExampleRun.flags false false false)
              ExampleRun.pkgs Example_exit_1)
    as (_ & _ & _ & _ & _ & _ & _ & _ & site & _ & _ & _ & _ & _ & _ & _ & _ & _ & _ & Hin).
  exists site. exact Hin.
Defined.

Lemma Example_safe_line :
  cli.Safe ∈ (cli.main ExampleRun.envSafe (ExampleRun.flags false false false)
                ExampleRun.pkgs).1.
Proof. vm_compute. apply list_elem_of_here. Defined.

Lemma main_safe_sound_witness :
  (cli.main ExampleRun.envSafe (ExampleRun.flags false false false)
     ExampleRun.pkgs).2 = cli.Return.
Proof.
  apply (main_safe_sound ExampleRun.envSafe (ExampleRun.flags false false false)
           ExampleRun.pkgs Example_safe_line).
Defined.

Lemma main_exit_2_witness :
  (cli.main ExampleRun.envNoLoad (ExampleRun.flags false false false)
     ExampleRun.pkgs).2 = cli.Exit 2.
Proof.
  apply (main_exit_2 ExampleRun.envNoLoad (ExampleRun.flags false false false)
           ExampleRun.pkgs).
  right. left. by exists "cannot find package".
Defined.

Lemma Example_alias_stops :
  anyscope.FindQueryMethods ExampleRun.aliasScope Example.prog = None.
Proof. vm_compute. reflexivity. Defined.

Lemma Example_kept fn :
  fn ∈ [0; 1; 10] → kept ExampleWrappers.kinds ExampleWrappers.left fn.
Proof.
  intros Hfn. set_unfold in Hfn. unfold kept.
  destruct Hfn as [->|[->|[->|[]]]]; [by left|by right; right..].
Defined.

Lemma DeleteSyntheticNodesIn_kept_witness :
  synthetic.DeleteSyntheticNodesIn ExampleWrappers.kinds [0; 1; 10]
    ExampleWrappers.left = Some ExampleWrappers.left.
Proof.
  exact (DeleteSyntheticNodesIn_kept ExampleWrappers.kinds [0; 1; 10]
           ExampleWrappers.left Example_kept).
Defined.
